(** * Evidence Library configuration (app/config.py): a shallow embedding

    The module [app/config.py] reads settings from the environment, builds a
    Kerko [Composer] and registers fields, facets, a badge and a sort option
    with it.  This development embeds

    - Python text as lists of code points, with the fragment of the [re]
      module that the patterns of the module use (a backtracking matcher
      with greedy repetition, [finditer] and [sub]);
    - the transformers [find] and [split] of Kerko and the extractor chains
      the module appends to the [alternateId] field;
    - the environment ([environs]), the part of [pathlib] the module calls,
      and the class body of [Config] as a computation that may raise;

    and proves the properties of the module's specification against it. *)

From Stdlib Require Import NArith ZArith QArith Ascii String.
From stdpp Require Import base option list strings gmap.

Local Open Scope N_scope.

(** ** Python text *)

(** A Python [str] is a sequence of Unicode code points. *)
Definition char : Type := N.
Definition str : Type := list char.

(** An ASCII literal of the source as a [str]. *)
Definition u (s : string) : str :=
  (λ a, N_of_ascii a) <$> list_ascii_of_string s.

Definition LF : char := 10.

(** [str.isspace] on one code point, which is also what [\s] matches in a
    [str] pattern. *)
Definition isspace (x : char) : bool :=
  ((9 <=? x) && (x <=? 13)) || ((28 <=? x) && (x <=? 32))
  || (x =? 0x85) || (x =? 0xA0) || (x =? 0x1680)
  || ((0x2000 <=? x) && (x <=? 0x200A))
  || (x =? 0x2028) || (x =? 0x2029) || (x =? 0x202F) || (x =? 0x205F)
  || (x =? 0x3000).

(** Simple lower-casing, exact on the code points whose lower case is an
    ASCII character (the ASCII capitals, U+0130 and the Kelvin sign); the
    patterns of the module only hold ASCII literals. *)
Definition unicode_tolower (x : char) : char :=
  if (65 <=? x) && (x <=? 90) then x + 32
  else if x =? 0x130 then 105
  else if x =? 0x212A then 107
  else x.

(** The extra equivalences of [sre_compile._ignorecase_fixes] that concern
    ASCII letters: dotless i for [i], long s for [s]. *)
Definition ignorecase_fix (lo x : char) : bool :=
  ((lo =? 105) && (x =? 0x131)) || ((lo =? 115) && (x =? 0x17F)).

Definition str_eqb (a b : str) : bool := bool_decide (a = b).

(** [value.split(sep)] for a non-empty separator: every occurrence of [sep]
    cuts, adjacent separators give empty strings, and the result is never
    empty.  [cur] holds the characters of the current piece, reversed. *)
Fixpoint starts_with (p s : str) : option str :=
  match p, s with
  | [], _ => Some s
  | c :: p', x :: s' => if c =? x then starts_with p' s' else None
  | _ :: _, [] => None
  end.

Fixpoint split_loop (sep : str) (s : str) (skip : nat) (cur : str)
  : list str :=
  match s with
  | [] => [rev cur]
  | x :: s' =>
    match skip with
    | S n => split_loop sep s' n cur
    | O =>
      match starts_with sep s with
      | Some _ => rev cur :: split_loop sep s' (pred (length sep)) []
      | None => split_loop sep s' 0%nat (x :: cur)
      end
    end
  end.

(** [None] is the [ValueError] Python raises for an empty separator. *)
Definition str_split (sep : str) (s : str) : option (list str) :=
  match sep with
  | [] => None
  | _ => Some (split_loop sep s 0 [])
  end.

(** [sep.join(pieces)]. *)
Fixpoint str_join (sep : str) (pieces : list str) : str :=
  match pieces with
  | [] => []
  | [p] => p
  | p :: ps => p ++ sep ++ str_join sep ps
  end.

(** ** The [re] module, on the fragment the patterns use *)

Module re.

Record flags := Flags { IGNORECASE : bool; MULTILINE : bool }.

Definition no_flags : flags := Flags false false.

(** What one character position can be asked to match. *)
Inductive cls :=
| CAny                (* .   any character but a line feed *)
| CSpace              (* \s *)
| CNotSpace           (* \S *)
| CLit (c : char).    (* a literal character *)

(** A pattern is a sequence of assertions, single characters, greedily
    repeated single characters, and the brackets of group 1. *)
Inductive node :=
| Bol                 (* ^ *)
| Eol                 (* $ *)
| One (c : cls)
| Star (c : cls)      (* c* *)
| Plus (c : cls)      (* c+ *)
| GOpen               (* ( *)
| GClose.             (* ) *)

Definition regex : Type := list node.

(** *** Reading a pattern string *)

Definition quantified (c : cls) (p : str) : node * str :=
  match p with
  | q :: p' =>
    if q =? 42 then (Star c, p')            (* * *)
    else if q =? 43 then (Plus c, p')       (* + *)
    else (One c, p)
  | [] => (One c, p)
  end.

(** Characters whose meaning in a pattern this fragment does not cover. *)
Definition unsupported (x : char) : bool :=
  (x =? 42) || (x =? 43) || (x =? 63) || (x =? 91) || (x =? 93)
  || (x =? 123) || (x =? 125) || (x =? 124) || (x =? 92).

Fixpoint parse (fuel : nat) (p : str) : option regex :=
  match fuel with
  | O => None
  | S fuel =>
    match p with
    | [] => Some []
    | x :: p' =>
      if x =? 94 then cons Bol <$> parse fuel p'            (* ^ *)
      else if x =? 36 then cons Eol <$> parse fuel p'       (* $ *)
      else if x =? 40 then cons GOpen <$> parse fuel p'     (* ( *)
      else if x =? 41 then cons GClose <$> parse fuel p'    (* ) *)
      else if x =? 92 then                                  (* \ *)
        match p' with
        | e :: p'' =>
          if e =? 115 then
            let '(n, q) := quantified CSpace p'' in cons n <$> parse fuel q
          else if e =? 83 then
            let '(n, q) := quantified CNotSpace p'' in cons n <$> parse fuel q
          else None
        | [] => None
        end
      else if x =? 46 then                                  (* . *)
        let '(n, q) := quantified CAny p' in cons n <$> parse fuel q
      else if unsupported x then None
      else let '(n, q) := quantified (CLit x) p' in cons n <$> parse fuel q
    end
  end.

(** [re.compile] of a pattern written in the source; a pattern outside the
    fragment compiles to the pattern that never matches. *)
Definition never : regex := [One (CLit 0); Bol].

Definition compile (pattern : string) : regex :=
  default never (parse (S (String.length pattern)) (u pattern)).

(** *** Matching *)

Definition accepts (fl : flags) (c : cls) (x : char) : bool :=
  match c with
  | CAny => negb (x =? LF)
  | CSpace => isspace x
  | CNotSpace => negb (isspace x)
  | CLit l =>
    if IGNORECASE fl
    then (unicode_tolower x =? unicode_tolower l)
         || ignorecase_fix (unicode_tolower l) x
    else x =? l
  end.

(** [prev] is the character before the current position, [None] at the
    start of the text. *)
Definition at_bol (fl : flags) (prev : option char) : bool :=
  match prev with
  | None => true
  | Some c => MULTILINE fl && (c =? LF)
  end.

(** [$] holds at the end of the text and before a line feed that ends the
    text; with [MULTILINE] before every line feed. *)
Definition at_eol (fl : flags) (s : str) : bool :=
  match s with
  | [] => true
  | [x] => x =? LF
  | x :: _ => MULTILINE fl && (x =? LF)
  end.

(** Where group 1 was opened (the text that remained there) and what it
    captured. *)
Record caps := Caps { gopen : option str; group1 : option str }.

Definition no_caps : caps := Caps None None.

Definition open_group (s : str) (cs : caps) : caps :=
  Caps (Some s) (group1 cs).

Definition close_group (s : str) (cs : caps) : caps :=
  match gopen cs with
  | Some s0 => Caps (gopen cs) (Some (take (length s0 - length s) s0))
  | None => cs
  end.

Definition cont : Type := option char → str → caps → option (caps * str).

(** Greedy repetition of one character class: take as many characters as
    match, then give them back one at a time until the rest of the pattern
    ([k]) matches. *)
Fixpoint repeat (fl : flags) (c : cls) (k : cont)
    (prev : option char) (s : str) (cs : caps) : option (caps * str) :=
  match s with
  | x :: s' =>
    if accepts fl c x then
      match repeat fl c k (Some x) s' cs with
      | Some r => Some r
      | None => k prev s cs
      end
    else k prev s cs
  | [] => k prev s cs
  end.

(** One attempt at the current position: the captures and the text that
    remains after the match, or [None]. *)
Fixpoint exec (fl : flags) (r : regex) : cont :=
  match r with
  | [] => λ _ s cs, Some (cs, s)
  | Bol :: r' => λ prev s cs,
      if at_bol fl prev then exec fl r' prev s cs else None
  | Eol :: r' => λ prev s cs,
      if at_eol fl s then exec fl r' prev s cs else None
  | One c :: r' => λ prev s cs,
      match s with
      | x :: s' => if accepts fl c x then exec fl r' (Some x) s' cs else None
      | [] => None
      end
  | Star c :: r' => repeat fl c (exec fl r')
  | Plus c :: r' => λ prev s cs,
      match s with
      | x :: s' =>
        if accepts fl c x then repeat fl c (exec fl r') (Some x) s' cs
        else None
      | [] => None
      end
  | GOpen :: r' => λ prev s cs, exec fl r' prev s (open_group s cs)
  | GClose :: r' => λ prev s cs, exec fl r' prev s (close_group s cs)
  end.

(** A match object: [m.start()], [m.end()] and [m.group(1)]. *)
Record Match := MkMatch { m_start : nat; m_end : nat; m_group1 : option str }.

(** [finditer]: the attempts run from left to right; after a match the
    scan resumes where the match ended ([skip] counts the characters of
    the last match still to pass), one further after an empty match. *)
Fixpoint scan (fl : flags) (r : regex) (prev : option char) (pos : nat)
    (s : str) (skip : nat) : list Match :=
  let here :=
    match skip with
    | O => exec fl r prev s no_caps
    | S _ => None
    end in
  match here with
  | Some (cs, rest) =>
    let n := (length s - length rest)%nat in
    MkMatch pos (pos + n) (group1 cs) ::
      match s with
      | [] => []
      | x :: s' => scan fl r (Some x) (S pos) s' (pred n)
      end
  | None =>
    match s with
    | [] => []
    | x :: s' => scan fl r (Some x) (S pos) s' (pred skip)
    end
  end.

Definition finditer (r : regex) (fl : flags) (value : str) : list Match :=
  scan fl r None 0 value 0.

(** [re.sub(pattern, repl, value, count)] for a replacement without
    backslashes: the first [count] matches (all when [count] is 0) are
    replaced by [repl]. *)
Fixpoint rebuild (repl : str) (ms : list Match) (pos : nat) (s : str) : str :=
  match ms with
  | [] => s
  | mt :: ms' =>
    take (m_start mt - pos) s ++ repl
      ++ rebuild repl ms' (m_end mt) (drop (m_end mt - pos) s)
  end.

Definition sub (r : regex) (fl : flags) (repl : str) (value : str)
    (count : nat) : str :=
  let ms := finditer r fl value in
  rebuild repl (match count with O => ms | _ => take count ms end) 0 value.

End re.

(** ** Values and exceptions *)

(** The Python values that flow through the transformers and that the
    settings and the stored documents hold. *)
Inductive value :=
| VNone
| VBool (b : bool)
| VInt (z : Z)
| VStr (s : str)
| VList (l : list str).

(** [bool(v)]. *)
Definition truthy (v : value) : bool :=
  match v with
  | VNone => false
  | VBool b => b
  | VInt z => negb (z =? 0)%Z
  | VStr s => negb (str_eqb s [])
  | VList l => match l with [] => false | _ => true end
  end.

Inductive error :=
| EnvError (name : string)        (* environs: variable not set *)
| KeyError (key : string)
| AttributeError (attr : string)
| TypeError
| ValueError.

Inductive result (A : Type) :=
| Ok (a : A)
| Raise (e : error).
Arguments Ok {A} a.
Arguments Raise {A} e.

Global Instance result_ret : MRet result := λ A a, Ok a.
Global Instance result_bind : MBind result := λ A B f r,
  match r with
  | Ok a => f a
  | Raise e => Raise e
  end.

Definition is_ok {A} (r : result A) : bool :=
  match r with Ok _ => true | Raise _ => false end.

(** ** Kerko: transformers, extractors, specs and the composer

    Kerko is a dependency of the repository.  What the module calls of it is
    embedded from its documented behaviour; the default fields, facets,
    sorts and badges a fresh [Composer] holds are a parameter ([Lib]). *)

Definition Transformer : Type := value → result value.

Module transformers.

(** [transformers.find(regex, flags, group=1, max_matches)]: the captures of
    group 1 of the successive matches, at most [max_matches] of them, all
    of them when [max_matches] is 0.  With [max_matches=1] the result is
    the single capture as a string, otherwise a list.  Without a match the
    string is taken to be empty, which is what lets [split] follow [find]
    in a chain; no property below rests on that case. *)
Definition find (regex : string) (flags : re.flags) (max_matches : nat)
  : Transformer := λ v,
  match v with
  | VStr s =>
    let all := (λ m, default [] (re.m_group1 m))
                 <$> re.finditer (re.compile regex) flags s in
    let matches :=
      match max_matches with O => all | _ => take max_matches all end in
    Ok (match max_matches with
        | 1%nat => VStr (hd [] matches)
        | _ => VList matches
        end)
  | _ => Raise TypeError
  end.

(** [transformers.split(sep)]: [value.split(sep)]. *)
Definition split (sep : string) : Transformer := λ v,
  match v with
  | VStr s =>
    match str_split (u sep) s with
    | Some l => Ok (VList l)
    | None => Raise ValueError
    end
  | _ => Raise (AttributeError "split")
  end.

End transformers.

(** A Zotero item as the extractors see it: the fields of [item['data']]
    and the formats requested with the item ([item['citation']], ...). *)
Record Item := MkItem {
  item_data : gmap string value;
  item_formats : gmap string value
}.

#[warnings="-register-all"] Inductive Extractor :=
| RawDataExtractor
| ItemExtractor (key format_ : string)
| ItemDataExtractor (key : string)
| InCollectionExtractor (collection_key : string)
| InCollectionBoostExtractor (collection_key : string) (boost_factor : Q)
| TransformerExtractor (extractor : Extractor) (transformers : list Transformer)
| MultiExtractor (extractors : list Extractor)
| LibraryExtractor (name : string).   (* an extractor of a default field *)

Definition apply_transformers (ts : list Transformer) (v : value)
  : result value :=
  foldl (λ r t, r ≫= t) (Ok v) ts.

(** [extractor.extract(item, ...)] for the extractors whose behaviour the
    module fixes: the two item extractors and [TransformerExtractor], which
    returns [None] for a missing value and otherwise runs its transformers
    in order.  [None] on the Rocq side: an extractor that is not embedded. *)
Fixpoint extract (e : Extractor) (item : Item) : option (result value) :=
  match e with
  | ItemDataExtractor key => Some (Ok (default VNone (item_data item !! key)))
  | ItemExtractor key _ => Some (Ok (default VNone (item_formats item !! key)))
  | TransformerExtractor inner ts =>
    r ← extract inner item;
    Some (v ← r;
          match v with
          | VNone => Ok VNone
          | _ => apply_transformers ts v
          end)
  | _ => None
  end.

Inductive FieldType :=
| STORED
| BOOLEAN (stored : bool).

Inductive Codec :=
| BaseFieldCodec
| JSONFieldCodec.

Record FieldSpec := MkFieldSpec {
  field_key : string;
  field_type : option FieldType;
  field_extractor : Extractor;
  field_codec : Codec
}.

Inductive FacetSpec :=
| CollectionFacetSpec (key filter_key : string) (title : str) (weight : Z)
    (collection_key : string)
| LibraryFacetSpec (key : string).    (* a default facet of Kerko *)

Definition facet_key (f : FacetSpec) : string :=
  match f with
  | CollectionFacetSpec key _ _ _ _ => key
  | LibraryFacetSpec key => key
  end.

Definition facet_collection_key (f : FacetSpec) : option string :=
  match f with
  | CollectionFacetSpec _ _ _ _ ck => Some ck
  | LibraryFacetSpec _ => None
  end.

Record TemplateRenderer := MkTemplateRenderer {
  template_name : string;
  badge_title : str
}.

(** A stored document of the search index: field key to stored value. *)
Abbreviation Document := (gmap string value).

Record BadgeSpec := MkBadgeSpec {
  badge_key : string;
  badge_field : FieldSpec;
  badge_activator : FieldSpec → Document → bool;
  badge_renderer : TemplateRenderer;
  badge_weight : Z
}.

(** [BadgeSpec.is_active(item)]. *)
Definition is_active (b : BadgeSpec) (item : Document) : bool :=
  badge_activator b (badge_field b) item.

Record SortSpec := MkSortSpec {
  sort_key : string;
  sort_label : str;
  sort_weight : Z;
  sort_fields : list FieldSpec;
  sort_reverse : list bool
}.

(** A Python [dict] with string keys: insertion-ordered, an assignment to a
    present key keeps its place. *)
Definition dict (A : Type) : Type := list (string * A).

Fixpoint dict_get {A} (d : dict A) (k : string) : option A :=
  match d with
  | [] => None
  | (k', v) :: d' => if bool_decide (k' = k) then Some v else dict_get d' k
  end.

Fixpoint dict_set {A} (d : dict A) (k : string) (v : A) : dict A :=
  match d with
  | [] => [(k, v)]
  | (k', v') :: d' =>
    if bool_decide (k' = k) then (k, v) :: d' else (k', v') :: dict_set d' k v
  end.

(** [d[k]]. *)
Definition dict_item {A} (d : dict A) (k : string) : result A :=
  match dict_get d k with
  | Some v => Ok v
  | None => Raise (KeyError k)
  end.

Definition keys {A} (d : dict A) : list string := fst <$> d.

Record Composer := MkComposer {
  whoosh_language : string;
  exclude_default_facets : list string;
  exclude_default_fields : list string;
  default_child_include_re : string;
  default_child_exclude_re : string;
  fields : dict FieldSpec;
  facets : dict FacetSpec;
  sorts : dict SortSpec;
  badges : dict BadgeSpec
}.

Definition add_field (c : Composer) (f : FieldSpec) : Composer :=
  MkComposer (whoosh_language c) (exclude_default_facets c)
    (exclude_default_fields c) (default_child_include_re c)
    (default_child_exclude_re c)
    (dict_set (fields c) (field_key f) f) (facets c) (sorts c) (badges c).

Definition add_facet (c : Composer) (f : FacetSpec) : Composer :=
  MkComposer (whoosh_language c) (exclude_default_facets c)
    (exclude_default_fields c) (default_child_include_re c)
    (default_child_exclude_re c)
    (fields c) (dict_set (facets c) (facet_key f) f) (sorts c) (badges c).

Definition add_sort (c : Composer) (s : SortSpec) : Composer :=
  MkComposer (whoosh_language c) (exclude_default_facets c)
    (exclude_default_fields c) (default_child_include_re c)
    (default_child_exclude_re c)
    (fields c) (facets c) (dict_set (sorts c) (sort_key s) s) (badges c).

Definition add_badge (c : Composer) (b : BadgeSpec) : Composer :=
  MkComposer (whoosh_language c) (exclude_default_facets c)
    (exclude_default_fields c) (default_child_include_re c)
    (default_child_exclude_re c)
    (fields c) (facets c) (sorts c) (dict_set (badges c) (badge_key b) b).

(** What the repository takes from outside [config.py]: the defaults of a
    fresh Kerko composer and the transformer of [app/transformers.py]. *)
Record Lib := MkLib {
  default_fields : list FieldSpec;
  default_facets : list FacetSpec;
  default_sorts : list SortSpec;
  default_badges : list BadgeSpec;
  extra_field_cleaner : Transformer
}.

Definition excluded (l : list string) (k : string) : bool :=
  bool_decide (k ∈ l).

(** [Composer(...)]: the defaults are registered in order, but for the
    excluded fields and facets. *)
Definition Composer_init (lib : Lib) (whoosh_language : string)
    (exclude_default_facets exclude_default_fields : list string)
    (default_child_include_re default_child_exclude_re : string) : Composer :=
  let c0 := MkComposer whoosh_language exclude_default_facets
              exclude_default_fields default_child_include_re
              default_child_exclude_re [] [] [] [] in
  let c1 := foldl add_field c0
              (filter (λ f, excluded exclude_default_fields (field_key f) = false)
                 (default_fields lib)) in
  let c2 := foldl add_facet c1
              (filter (λ f, excluded exclude_default_facets (facet_key f) = false)
                 (default_facets lib)) in
  let c3 := foldl add_sort c2 (default_sorts lib) in
  foldl add_badge c3 (default_badges lib).

(** [composer.fields[key].extractor.extractors.append(e)]. *)
Definition append_extractor (c : Composer) (key : string) (e : Extractor)
  : result Composer :=
  f ← dict_item (fields c) key;
  match field_extractor f with
  | MultiExtractor es =>
    Ok (MkComposer (whoosh_language c) (exclude_default_facets c)
          (exclude_default_fields c) (default_child_include_re c)
          (default_child_exclude_re c)
          (dict_set (fields c) key
             (MkFieldSpec (field_key f) (field_type f)
                (MultiExtractor (es ++ [e])) (field_codec f)))
          (facets c) (sorts c) (badges c))
  | _ => Raise (AttributeError "extractors")
  end.

(** ** The environment *)

Abbreviation Environ := (gmap string str).

(** What a run of the module depends on: the environment of the process,
    the variables of the [.env] file ([None] without such a file), the
    working directory and the location of the module ([__file__]). *)
Record World := MkWorld {
  environ : Environ;
  dotenv : option Environ;
  cwd : str;
  module_file : str
}.

(** [env.read_env()]: the variables of the [.env] file are added to the
    environment of the process; a variable that is already set is kept. *)
Definition read_env (w : World) : Environ :=
  match dotenv w with
  | Some file => environ w ∪ file
  | None => environ w
  end.

(** [env.str(name, default)]; without a default a missing variable raises. *)
Definition env_str (e : Environ) (name : string) (default : option str)
  : result str :=
  match e !! name with
  | Some v => Ok v
  | None =>
    match default with
    | Some d => Ok d
    | None => Raise (EnvError name)
    end
  end.

(** ** [pathlib], POSIX flavour *)

Module pathlib.

Definition sep : char := 47.

(** A path: its root (empty, one slash or two) and its components. *)
Record PurePath := MkPath { root : str; parts : list str }.

Fixpoint leading_seps (s : str) : nat :=
  match s with
  | x :: s' => if x =? sep then S (leading_seps s') else O
  | [] => O
  end.

Definition is_component (p : str) : bool :=
  negb (str_eqb p []) && negb (str_eqb p [46]).

Definition Path (s : str) : PurePath :=
  MkPath
    (match leading_seps s with
     | O => []
     | 2%nat => [sep; sep]
     | _ => [sep]
     end)
    (filter (λ p, is_component p = true) (split_loop [sep] s 0 [])).

Definition parent (p : PurePath) : PurePath :=
  MkPath (root p) (removelast (parts p)).

Definition is_absolute (p : PurePath) : bool := negb (str_eqb (root p) []).

(** [p / q] *)
Definition joinpath (p : PurePath) (q : str) : PurePath :=
  let q' := Path q in
  if is_absolute q' then q' else MkPath (root p) (parts p ++ parts q').

Definition absolute (cwd : str) (p : PurePath) : PurePath :=
  if is_absolute p then p
  else MkPath (root (Path cwd)) (parts (Path cwd) ++ parts p).

(** [str(p)] *)
Definition to_str (p : PurePath) : str :=
  match root p, parts p with
  | [], [] => [46]
  | r, ps => r ++ str_join [sep] ps
  end.

End pathlib.

Notation "p // q" := (pathlib.joinpath p (u q)) (at level 40, left associativity).

(** ** The module [app/config.py] *)

(** [flask_babel.gettext] outside an application context, as at import time:
    the message itself. *)
Definition gettext (s : str) : str := s.

Definition flags_IM : re.flags := re.Flags true true.   (* re.IGNORECASE | re.MULTILINE *)

(** The 'data' field, replacing the default one. *)
Definition data_field (lib : Lib) : FieldSpec :=
  MkFieldSpec "data" (Some STORED)
    (TransformerExtractor RawDataExtractor [extra_field_cleaner lib])
    JSONFieldCodec.

(** The replacement [<div class="csl-entry">]; 34 is the double quote. *)
Definition csl_entry_div : str :=
  u "<div class=" ++ [34] ++ u "csl-entry" ++ [34] ++ u ">".

(** The two lambdas of the 'preview' field. *)
Definition preview_open : Transformer := λ value,
  match value with
  | VStr s => Ok (VStr (re.sub (re.compile "^<span>") re.no_flags
                          csl_entry_div s 1))
  | _ => Raise TypeError
  end.

Definition preview_close : Transformer := λ value,
  match value with
  | VStr s => Ok (VStr (re.sub (re.compile "</span>$") re.no_flags
                          (u "</div>") s 1))
  | _ => Raise TypeError
  end.

Definition preview_extractor : Extractor :=
  TransformerExtractor (ItemExtractor "citation" "citation")
    [preview_open; preview_close].

Definition preview_field : FieldSpec :=
  MkFieldSpec "preview" (Some STORED) preview_extractor BaseFieldCodec.

(** The three extractors appended to the 'alternateId' field. *)
Definition EdTechHub_extractor : Extractor :=
  TransformerExtractor (ItemDataExtractor "extra")
    [transformers.find "^\s*EdTechHub.ItemAlsoKnownAs\s*:\s*(.*)$" flags_IM 1;
     transformers.split ";"].

Definition KerkoCite_extractor : Extractor :=
  TransformerExtractor (ItemDataExtractor "extra")
    [transformers.find "^\s*KerkoCite.ItemAlsoKnownAs\s*:\s*(.*)$" flags_IM 1;
     transformers.split " "].

Definition shortDOI_extractor : Extractor :=
  TransformerExtractor (ItemDataExtractor "extra")
    [transformers.find "^\s*shortDOI\s*:\s*(\S+)\s*$" flags_IM 0].

(** The facets, in the order of their [add_facet] calls. *)
Definition Config_facets : list FacetSpec := [
  CollectionFacetSpec "facet_learners" "learners"
    (gettext (u "Learners")) 10 "WZXRTV9N";
  CollectionFacetSpec "facet_educators" "educators"
    (gettext (u "Educators")) 20 "MS38G6YW";
  CollectionFacetSpec "facet_education_systems" "education_systems"
    (gettext (u "Education systems")) 30 "ZN4PI2Z6";
  CollectionFacetSpec "facet_cost_effectiveness" "cost_effectiveness"
    (gettext (u "Cost effectiveness")) 40 "SCMAR3ZW";
  CollectionFacetSpec "facet_hardware_and_modality" "hardware_and_modality"
    (gettext (u "Hardware and modality")) 50 "CE7P7GJX";
  CollectionFacetSpec "facet_educational_level" "educational_level"
    (gettext (u "Educational level")) 60 "B2CQYHX8";
  CollectionFacetSpec "facet_within_country_contexts" "within_country_contexts"
    (gettext (u "Within-country contexts")) 70 "KY3HHD5I";
  CollectionFacetSpec "facet_language_of_publication" "language_of_publication"
    (gettext (u "Language of publication")) 80 "5WYC9ALL";
  CollectionFacetSpec "facet_country" "country"
    (gettext (u "Geography")) 90 "4UP8CZQE";
  CollectionFacetSpec "facet_research_method" "research_method"
    (gettext (u "Research method")) 110 "P4WEVZLQ";
  CollectionFacetSpec "facet_covid_and_reopening_of_schools"
    "covid_and_reopening_of_schools"
    (gettext (u "COVID and reopening of schools")) 120 "TIYLRP8N";
  CollectionFacetSpec "facet_featured" "featured"
    (gettext (u "Featured publisher")) 100 "SGAGGGLK"
].

(** The EdTech Hub flag, its badge and the boost. *)
Definition edtechhub_field : FieldSpec :=
  MkFieldSpec "edtechhub" (Some (BOOLEAN true))
    (InCollectionExtractor "BFS3UXT4") BaseFieldCodec.

(** [lambda field, item: bool(item.get(field.key))] *)
Definition edtechhub_activator (field : FieldSpec) (item : Document) : bool :=
  truthy (default VNone (item !! field_key field)).

Definition edtechhub_badge (field : FieldSpec) : BadgeSpec :=
  MkBadgeSpec "edtechhub" field edtechhub_activator
    (MkTemplateRenderer "app/_hub-badge.html.jinja2"
       (gettext (u "Published by The EdTech Hub")))
    100.

Definition boost_field : FieldSpec :=
  MkFieldSpec "_boost" None
    (InCollectionBoostExtractor "BFS3UXT4" 5) BaseFieldCodec.

Definition hub_desc_sort (f1 f2 f3 f4 : FieldSpec) : SortSpec :=
  MkSortSpec "hub_desc" (gettext (u "EdTech Hub first")) 5
    [f1; f2; f3; f4] [false; true; false; false].

(** The settings of [Config] that are constants of the source. *)
Definition Config_constants : list (string * value) := [
  ("LOGGING_HANDLER", VStr (u "default"));
  ("EXPLAIN_TEMPLATE_LOADING", VBool false);
  ("BABEL_DEFAULT_LOCALE", VStr (u "en_GB"));
  ("KERKO_WHOOSH_LANGUAGE", VStr (u "en"));
  ("KERKO_ZOTERO_LOCALE", VStr (u "en-GB"));
  ("HOME_URL", VStr (u "https://edtechhub.org/"));
  ("HOME_TITLE", VStr (gettext (u "The EdTech Hub")));
  ("HOME_SUBTITLE",
   VStr (gettext (u "Research and Innovation to fulfil the potential of EdTech")));
  ("ABOUT_URL", VStr (u "https://edtechhub.org/about-edtech-hub/"));
  ("ABOUT_TEAM_URL",
   VStr (u "https://edtechhub.org/about-edtech-hub/directors-team/"));
  ("ABOUT_ADVISORS_URL",
   VStr (u "https://edtechhub.org/about-edtech-hub/advisors/"));
  ("TOOLS_DATABASE_URL", VStr (u "https://database.edtechhub.org/"));
  ("BLOG_URL", VStr (u "https://edtechhub.org/blog/"));
  ("CONTACT_URL", VStr (u "https://edtechhub.org/contact-us/"));
  ("NAV_TITLE", VStr (gettext (u "Evidence Library")));
  ("KERKO_TITLE",
   VStr (gettext (u "Evidence Library " ++ [0x2013] ++ u " The EdTech Hub")));
  ("KERKO_PRINT_ITEM_LINK", VBool true);
  ("KERKO_PRINT_CITATIONS_LINK", VBool true);
  ("KERKO_RESULTS_FIELDS",
   VList [u "id"; u "attachments"; u "bib"; u "coins"; u "data"; u "preview";
          u "url"]);
  ("KERKO_RESULTS_ABSTRACTS", VBool true);
  ("KERKO_TEMPLATE_BASE", VStr (u "app/base.html.jinja2"));
  ("KERKO_TEMPLATE_LAYOUT", VStr (u "app/layout.html.jinja2"));
  ("KERKO_TEMPLATE_SEARCH", VStr (u "app/search.html.jinja2"));
  ("KERKO_TEMPLATE_SEARCH_ITEM", VStr (u "app/search-item.html.jinja2"));
  ("KERKO_TEMPLATE_ITEM", VStr (u "app/item.html.jinja2"));
  ("KERKO_DOWNLOAD_ATTACHMENT_NEW_WINDOW", VBool true);
  ("KERKO_RELATIONS_INITIAL_LIMIT", VInt 50);
  ("KERKO_CSL_STYLE",
   VStr (u "https://docs.edtechhub.org/static/dist/csl/eth_apa.xml?202012301815"))
].

(** The class object [Config]. *)
Record Config := MkConfig {
  app_dir : pathlib.PurePath;
  SECRET_KEY : str;
  KERKO_ZOTERO_API_KEY : str;
  KERKO_ZOTERO_LIBRARY_ID : str;
  KERKO_ZOTERO_LIBRARY_TYPE : str;
  KERKO_DATA_DIR : str;
  LIBSASS_INCLUDES : list str;
  constants : list (string * value);
  KERKO_COMPOSER : Composer
}.

(** The variables that the body of [Config] reads, in order, each with
    whether the call gives a default. *)
Definition Config_env_reads : list (string * bool) := [
  ("FLASK_APP", false);
  ("SECRET_KEY", false);
  ("KERKO_ZOTERO_API_KEY", false);
  ("KERKO_ZOTERO_LIBRARY_ID", false);
  ("KERKO_ZOTERO_LIBRARY_TYPE", false);
  ("KERKO_DATA_DIR", true)
].

(** The composer part of the class body. *)
Definition Config_composer (lib : Lib) : result Composer :=
  let c := Composer_init lib "en"
             ["facet_tag"; "facet_link"; "facet_item_type"] ["data"]
             "^(_publish|publishPDF)$" EmptyString in
  let c := add_field c (data_field lib) in
  let c := add_field c preview_field in
  c ← append_extractor c "alternateId" EdTechHub_extractor;
  c ← append_extractor c "alternateId" KerkoCite_extractor;
  c ← append_extractor c "alternateId" shortDOI_extractor;
  let c := foldl add_facet c Config_facets in
  let c := add_field c edtechhub_field in
  f ← dict_item (fields c) "edtechhub";
  let c := add_badge c (edtechhub_badge f) in
  let c := add_field c boost_field in
  f1 ← dict_item (fields c) "edtechhub";
  f2 ← dict_item (fields c) "sort_date";
  f3 ← dict_item (fields c) "sort_creator";
  f4 ← dict_item (fields c) "sort_title";
  Ok (add_sort c (hub_desc_sort f1 f2 f3 f4)).

(** Loading the module up to the end of the body of [Config]:
    [env.read_env()], then the class body, statement by statement. *)
Definition load (lib : Lib) (w : World) : result Config :=
  let env := read_env w in
  flask_app ← env_str env "FLASK_APP" None;
  let app_dir := pathlib.absolute (cwd w) (pathlib.parent (pathlib.Path flask_app)) in
  secret_key ← env_str env "SECRET_KEY" None;
  api_key ← env_str env "KERKO_ZOTERO_API_KEY" None;
  library_id ← env_str env "KERKO_ZOTERO_LIBRARY_ID" None;
  library_type ← env_str env "KERKO_ZOTERO_LIBRARY_TYPE" None;
  data_dir ← env_str env "KERKO_DATA_DIR"
                (Some (pathlib.to_str (app_dir // "data" // "kerko")));
  let here := pathlib.parent (pathlib.parent (pathlib.Path (module_file w))) in
  let libsass := [
    pathlib.to_str (here // "static" // "src" // "vendor" // "bootstrap" // "scss");
    pathlib.to_str (here // "static" // "src" // "vendor" // "@fortawesome"
                      // "fontawesome-free" // "scss")
  ] in
  composer ← Config_composer lib;
  Ok (MkConfig app_dir secret_key api_key library_id library_type data_dir
        libsass Config_constants composer).

(** ** A sample library and sample runs, for examples *)

Definition sample_lib : Lib :=
  MkLib
    [MkFieldSpec "id" (Some STORED) (LibraryExtractor "id") BaseFieldCodec;
     MkFieldSpec "alternateId" (Some STORED)
       (MultiExtractor [LibraryExtractor "DOI"; LibraryExtractor "ISBN"])
       BaseFieldCodec;
     MkFieldSpec "data" (Some STORED) RawDataExtractor JSONFieldCodec;
     MkFieldSpec "sort_title" (Some STORED) (LibraryExtractor "sort_title")
       BaseFieldCodec;
     MkFieldSpec "sort_creator" (Some STORED) (LibraryExtractor "sort_creator")
       BaseFieldCodec;
     MkFieldSpec "sort_date" (Some STORED) (LibraryExtractor "sort_date")
       BaseFieldCodec]
    [LibraryFacetSpec "facet_tag"; LibraryFacetSpec "facet_item_type";
     LibraryFacetSpec "facet_link"]
    [] []
    (λ v, Ok v).

Definition sample_environ : Environ :=
  {[ "FLASK_APP" := u "kerkoapp.py";
     "SECRET_KEY" := u "s3cret";
     "KERKO_ZOTERO_API_KEY" := u "k";
     "KERKO_ZOTERO_LIBRARY_ID" := u "2405685";
     "KERKO_ZOTERO_LIBRARY_TYPE" := u "group" ]}.

Definition sample_world : World :=
  MkWorld sample_environ None (u "/srv/app") (u "/srv/app/app/config.py").

Definition extra_item (text : str) : Item :=
  MkItem {[ "extra" := VStr text ]} ∅.

(** ** Reading a text line by line

    The specification speaks of the lines of the 'Extra' field.  These
    definitions follow its words: the lines are the pieces between line
    feeds, and a line has the form [shortDOI: <t>] when, after optional
    whitespace, it reads the label (in any case), optional whitespace, a
    colon, optional whitespace, one token without whitespace, and nothing
    but whitespace after it. *)

Fixpoint take_while (p : char → bool) (s : str) : str :=
  match s with
  | x :: s' => if p x then x :: take_while p s' else []
  | [] => []
  end.

Fixpoint drop_while (p : char → bool) (s : str) : str :=
  match s with
  | x :: s' => if p x then drop_while p s' else s
  | [] => []
  end.

Definition lstrip (s : str) : str := drop_while isspace s.

Definition nonspace (x : char) : bool := negb (isspace x).

(** The lines of a text, [text.split('\n')]. *)
Definition lines (text : str) : list str := split_loop [LF] text 0 [].

(** A run of single characters, each of its class, with no way back. *)
Fixpoint ones (fl : re.flags) (cs : list re.cls) (s : str) : option str :=
  match cs with
  | [] => Some s
  | c :: cs' =>
    match s with
    | x :: s' => if re.accepts fl c x then ones fl cs' s' else None
    | [] => None
    end
  end.

(** The text after a label, read without regard to case. *)
Definition label (lab : string) (s : str) : option str :=
  ones flags_IM (re.CLit <$> u lab) s.

Definition colon : char := 58.

(** The token of a line of the form [shortDOI: <t>], in the words of the
    specification; [None] for a line of another form. *)
Definition shortDOI_line (l : str) : option str :=
  s ← label "shortDOI" (lstrip l);
  match lstrip s with
  | x :: s' =>
    if x =? colon then
      let v := lstrip s' in
      match take_while nonspace v with
      | [] => None
      | t => if forallb isspace (drop_while nonspace v) then Some t else None
      end
    else None
  | [] => None
  end.

(** A line that holds the label and nothing after it but an optional colon
    and whitespace. *)
Definition dangling_label (lab : string) (l : str) : bool :=
  match label lab (lstrip l) with
  | Some s =>
    match lstrip s with
    | [] => true
    | x :: s' => (x =? colon) && forallb isspace s'
    end
  | None => false
  end.

(** ** Auxiliary functions of the proofs *)

(** What [\s*$] leaves of a text under [MULTILINE]. *)
Fixpoint trail (s : str) : option str :=
  match s with
  | [] => Some []
  | x :: s' =>
    if isspace x then
      match trail s' with
      | Some r => Some r
      | None => if x =? LF then Some s else None
      end
    else None
  end.

(** The captures of [scan], without the positions. *)
Fixpoint gscan (fl : re.flags) (r : re.regex) (prev : option char)
    (s : str) (skip : nat) : list (option str) :=
  let here :=
    match skip with
    | O => re.exec fl r prev s re.no_caps
    | S _ => None
    end in
  match here with
  | Some (cs, rest) =>
    re.group1 cs ::
      match s with
      | [] => []
      | x :: s' => gscan fl r (Some x) s' (pred (length s - length rest))
      end
  | None =>
    match s with
    | [] => []
    | x :: s' => gscan fl r (Some x) s' (pred skip)
    end
  end.

Definition lastp (prev : option char) (a : str) : option char :=
  match last a with
  | Some x => Some x
  | None => prev
  end.

Definition no_bol (r : re.regex) : bool :=
  forallb (λ n, match n with re.Bol => false | _ => true end) r.

(** The least number of characters a match of the pattern takes. *)
Fixpoint min_len (r : re.regex) : nat :=
  match r with
  | [] => O
  | re.One _ :: r' | re.Plus _ :: r' => S (min_len r')
  | _ :: r' => min_len r'
  end.

(** ** Predicates and sample data of the properties *)

(** The variables the body of [Config] reads, and those among them that it
    reads without a default. *)
Definition env_variables : list string := fst <$> Config_env_reads.

Definition required_variables : list string :=
  omap (λ '(n, d), if d : bool then None else Some n) Config_env_reads.

(** Every field of a composer is filed under its own key. *)
Definition fields_wf (d : dict FieldSpec) : Prop :=
  ∀ k f, dict_get d k = Some f → field_key f = k.

(** A run with an empty environment and the variables in the [.env] file,
    and a run of the sample environment in another working directory. *)
Definition dotenv_world : World :=
  MkWorld ∅ (Some sample_environ) (u "/srv/app") (u "/srv/app/app/config.py").

Definition other_cwd_world : World :=
  MkWorld sample_environ None (u "/home/hub") (u "/srv/app/app/config.py").

(** An 'Extra' text with two lines of the form, a blank line, a note, and a
    line with two words behind the label. *)
Definition sample_extra : str :=
  u "shortDOI: 10/abc" ++ [LF] ++ [LF] ++ u "A note" ++ [LF]
  ++ u "  ShortDOI : 10/xyz  " ++ [LF] ++ u "shortDOI: two words".

(** *** Continuations of the matcher *)

(** A continuation that does not look at the previous character. *)
Definition prev_free (k : re.cont) : Prop := ∀ p p' s cs, k p s cs = k p' s cs.

(** A continuation whose matches take a prefix of the text, of at least [m]
    characters. *)
Definition consuming (m : nat) (k : re.cont) : Prop :=
  ∀ p s cs cs' rest, k p s cs = Some (cs', rest) →
    ∃ a, s = a ++ rest ∧ (m ≤ length a)%nat.

(** Classes none of which accepts a line feed. *)
Definition reject_LF (fl : re.flags) (cs : list re.cls) : bool :=
  forallb (λ c, negb (re.accepts fl c LF)) cs.

(** *** The tags of the 'preview' patterns *)

Definition span_open : str := u "<span>".
Definition span_close : str := u "</span>".

(** The two texts at which the pattern of the closing tag matches. *)
Definition close_tail (t : str) : Prop := t = span_close ∨ t = span_close ++ [LF].

(** *** The shape of the 'alternateId' patterns *)

(** The three patterns share their head: the start of a line, spaces, the
    label, spaces, a colon, spaces; [cs] are the characters of the label. *)
Definition label_head (cs : list re.cls) : re.regex :=
  [re.Bol; re.Star re.CSpace] ++ (re.One <$> cs)
  ++ [re.Star re.CSpace; re.One (re.CLit colon); re.Star re.CSpace].

(** The tail that takes the rest of the line into group 1. *)
Definition tail_rest : re.regex :=
  [re.GOpen; re.Star re.CAny; re.GClose; re.Eol].

(** The tail that takes one token into group 1, then spaces to the end of
    a line. *)
Definition tail_token : re.regex :=
  [re.GOpen; re.Plus re.CNotSpace; re.GClose; re.Star re.CSpace; re.Eol].

Definition rest_re (cs : list re.cls) : re.regex := label_head cs ++ tail_rest.

Definition EdTechHub_label : list re.cls :=
  (re.CLit <$> u "EdTechHub") ++ [re.CAny] ++ (re.CLit <$> u "ItemAlsoKnownAs").

Definition KerkoCite_label : list re.cls :=
  (re.CLit <$> u "KerkoCite") ++ [re.CAny] ++ (re.CLit <$> u "ItemAlsoKnownAs").

Definition shortDOI_label : list re.cls := re.CLit <$> u "shortDOI".

Definition shortDOI_re : re.regex := label_head shortDOI_label ++ tail_token.

(** A label that starts with a letter, which no space matches. *)
Definition starts_with_letter (cs : list re.cls) : Prop :=
  ∃ l cs', cs = re.CLit l :: cs' ∧ isspace (unicode_tolower l) = false.

(** The text behind label and colon, for a text that starts with the label;
    and the same behind leading spaces. *)
Definition body (cs : list re.cls) (s : str) : option str :=
  s2 ← ones flags_IM cs s;
  match lstrip s2 with
  | x :: s4 => if x =? colon then Some (lstrip s4) else None
  | [] => None
  end.

Definition after_label (cs : list re.cls) (s : str) : option str :=
  body cs (lstrip s).

(** One attempt of the shortDOI pattern at a text that starts with the
    label: the captures and what remains. *)
Definition tok_body (Y : str) : option (re.caps * str) :=
  s5 ← body shortDOI_label Y;
  match take_while nonspace s5 with
  | [] => None
  | t => (λ r, (re.Caps (Some s5) (Some t), r)) <$> trail (drop_while nonspace s5)
  end.

(** *** Lines *)

Definition notLF (x : char) : bool := negb (x =? LF).

Definition noLF (l : str) : Prop := Forall (λ y, y ≠ LF) l.

Definition blank (l : str) : bool := forallb isspace l.

(** What follows a line in a text: nothing, or a line feed and more. *)
Definition line_end (R : str) : Prop := R = [] ∨ ∃ J, R = LF :: J.

(** A line [<label>: <ids>] with the text [post] behind it. *)
Definition labelled_line (L ids post : str) : str := L ++ u ": " ++ ids ++ post.

(** A line of a text that is not a dangling shortDOI label. *)
Definition good_line (l : str) : Prop :=
  noLF l ∧ dangling_label "shortDOI" l = false.

(** *** Tactics *)

(** Membership in a list of constants, by evaluation. *)
Ltac in_list := apply (bool_decide_unpack _); vm_compute; exact I.

(** A true disjunction of comparisons on [N], as a proposition. *)
Ltac bool_to_prop H :=
  repeat first
    [ rewrite orb_true_iff in H | rewrite andb_true_iff in H
    | rewrite N.leb_le in H | rewrite N.eqb_eq in H ].

(** ** Parts of the class body, and data for the properties of the module *)

(** The composer of the [Composer(...)] call, before the module registers
    anything with it. *)
Definition fresh_composer (lib : Lib) : Composer :=
  Composer_init lib "en" ["facet_tag"; "facet_link"; "facet_item_type"]
    ["data"] "^(_publish|publishPDF)$" EmptyString.

(** The extractors the module appends to the 'alternateId' field, in the
    order of the three [append] calls. *)
Definition alternateId_appended : list Extractor :=
  [EdTechHub_extractor; KerkoCite_extractor; shortDOI_extractor].

(** The default fields the 'hub_desc' sort looks up, in the order of the
    lookups. *)
Definition sort_field_keys : list string :=
  ["sort_date"; "sort_creator"; "sort_title"].

(** The default field of a key: the one a fresh composer files under it. *)
Definition default_field (lib : Lib) (k : string) : option FieldSpec :=
  dict_get (fields (fresh_composer lib)) k.

(** The keys of the fields the module registers or changes, and the
    default facets the [Composer(...)] call excludes. *)
Definition module_field_keys : list string :=
  ["data"; "preview"; "alternateId"; "edtechhub"; "_boost"].

Definition excluded_facets : list string :=
  ["facet_tag"; "facet_link"; "facet_item_type"].

(** Kerko has a default field of that key; and its default 'alternateId'
    field holds a list of extractors. *)
Definition has_default (lib : Lib) (k : string) : Prop :=
  ∃ f, f ∈ default_fields lib ∧ field_key f = k.

Definition alternateId_is_list (lib : Lib) : Prop :=
  ∃ f es, f ∈ default_fields lib ∧ field_key f = "alternateId"
          ∧ field_extractor f = MultiExtractor es.

(** A library without defaults, and one whose 'alternateId' field holds a
    single extractor. *)
Definition bare_lib : Lib := MkLib [] [] [] [] (λ v, Ok v).

Definition single_lib : Lib :=
  MkLib [MkFieldSpec "alternateId" (Some STORED) (LibraryExtractor "DOI")
           BaseFieldCodec] [] [] [] (λ v, Ok v).

(** A run in which [SECRET_KEY] is not set. *)
Definition no_secret_world : World :=
  MkWorld (delete "SECRET_KEY" sample_environ) None (u "/srv/app")
    (u "/srv/app/app/config.py").

(** A token: a non-empty string without whitespace. *)
Definition token (t : str) : Prop := t ≠ [] ∧ Forall (λ x, isspace x = false) t.

(** An 'Extra' text with a line of alternate identifiers. *)
Definition sample_ids : str :=
  u "A note" ++ [LF] ++ u "KerkoCite.ItemAlsoKnownAs: 2405685:ABC 2405685:DEF".

(** The settings of [Config] that hold the value of a variable, by the
    name of the variable. *)
Definition env_setting (cfg : Config) (name : string) : option str :=
  if bool_decide (name = "SECRET_KEY") then Some (SECRET_KEY cfg)
  else if bool_decide (name = "KERKO_ZOTERO_API_KEY") then
    Some (KERKO_ZOTERO_API_KEY cfg)
  else if bool_decide (name = "KERKO_ZOTERO_LIBRARY_ID") then
    Some (KERKO_ZOTERO_LIBRARY_ID cfg)
  else if bool_decide (name = "KERKO_ZOTERO_LIBRARY_TYPE") then
    Some (KERKO_ZOTERO_LIBRARY_TYPE cfg)
  else if bool_decide (name = "KERKO_DATA_DIR") then Some (KERKO_DATA_DIR cfg)
  else None.

(** The directory two levels above the module, which the Sass include
    paths start from. *)
Definition package_parent (w : World) : pathlib.PurePath :=
  pathlib.parent (pathlib.parent (pathlib.Path (module_file w))).

(** The text a path contributes in front of a segment joined to it. *)
Definition dir_prefix (p : pathlib.PurePath) : str :=
  match pathlib.parts p with
  | [] => pathlib.root p
  | _ => pathlib.to_str p ++ [pathlib.sep]
  end.

(** A run of the sample environment with a [.env] file that sets other
    values. *)
Definition shadowed_world : World :=
  MkWorld sample_environ
    (Some {[ "SECRET_KEY" := u "from-file"; "KERKO_DATA_DIR" := u "var/kerko" ]})
    (u "/srv/app") (u "/srv/app/app/config.py").

(** * Properties *)

(** ** The embedding on sample inputs

    The matches, the pieces of the splits and the paths are those of
    CPython 3.11 on the same inputs. *)

Example compile_shortDOI_pattern :
  re.compile "^\s*shortDOI\s*:\s*(\S+)\s*$"
  = [re.Bol; re.Star re.CSpace] ++ (re.One <$> (re.CLit <$> u "shortDOI"))
    ++ [re.Star re.CSpace; re.One (re.CLit colon); re.Star re.CSpace;
        re.GOpen; re.Plus re.CNotSpace; re.GClose; re.Star re.CSpace; re.Eol].
Proof. vm_compute. reflexivity. Qed.

Example finditer_two_lines :
  re.finditer (re.compile "^\s*shortDOI\s*:\s*(\S+)\s*$") flags_IM
    (u "shortDOI: a" ++ [LF; LF] ++ u "shortDOI: b")
  = [re.MkMatch 0 12 (Some (u "a")); re.MkMatch 12 24 (Some (u "b"))].
Proof. vm_compute. reflexivity. Qed.

Example finditer_two_tokens :
  re.finditer (re.compile "^\s*shortDOI\s*:\s*(\S+)\s*$") flags_IM
    (u "shortDOI: a b") = [].
Proof. vm_compute. reflexivity. Qed.

Example finditer_case_and_long_s :
  re.finditer (re.compile "^\s*shortDOI\s*:\s*(\S+)\s*$") flags_IM
    ([0x17F] ++ u "hortDO" ++ [0x130] ++ u ": x")
  = [re.MkMatch 0 11 (Some (u "x"))].
Proof. vm_compute. reflexivity. Qed.

Example KerkoCite_keeps_trailing_characters :
  extract KerkoCite_extractor
    (extra_item (u "KerkoCite.ItemAlsoKnownAs: 10.1/xyz " ++ [13; LF] ++ u "foo"))
  = Some (Ok (VList [u "10.1/xyz"; [13]])).
Proof. vm_compute. reflexivity. Qed.

Example split_on_single_spaces :
  str_split (u " ") (u "a  b ") = Some [u "a"; []; u "b"; []].
Proof. vm_compute. reflexivity. Qed.

Example preview_wrapped :
  apply_transformers [preview_open; preview_close] (VStr (u "<span>Hub (2020)</span>"))
  = Ok (VStr (csl_entry_div ++ u "Hub (2020)</div>")).
Proof. vm_compute. reflexivity. Qed.

Example preview_inner_span_kept :
  apply_transformers [preview_open; preview_close] (VStr (u "<span><span>"))
  = Ok (VStr (csl_entry_div ++ u "<span>")).
Proof. vm_compute. reflexivity. Qed.

Example path_relative_flask_app :
  pathlib.to_str
    (pathlib.absolute (u "/srv/app") (pathlib.parent (pathlib.Path (u "kerkoapp.py")))
     // "data" // "kerko")
  = u "/srv/app/data/kerko".
Proof. vm_compute. reflexivity. Qed.

Example path_two_slashes :
  pathlib.to_str (pathlib.parent (pathlib.Path (u "//x/y")) // "data" // "kerko")
  = u "//x/data/kerko".
Proof. vm_compute. reflexivity. Qed.

Example sample_load_keys :
  match load sample_lib sample_world with
  | Ok cfg =>
    keys (fields (KERKO_COMPOSER cfg))
    = ["id"; "alternateId"; "sort_title"; "sort_creator"; "sort_date"; "data";
       "preview"; "edtechhub"; "_boost"]
    ∧ length (facets (KERKO_COMPOSER cfg)) = 12%nat
    ∧ keys (badges (KERKO_COMPOSER cfg)) = ["edtechhub"]
    ∧ keys (sorts (KERKO_COMPOSER cfg)) = ["hub_desc"]
  | Raise _ => False
  end.
Proof. vm_compute. repeat split; reflexivity. Qed.

Example sample_alternateId_extractors :
  match load sample_lib sample_world with
  | Ok cfg =>
    match dict_get (fields (KERKO_COMPOSER cfg)) "alternateId" with
    | Some f =>
      match field_extractor f with
      | MultiExtractor es => length es = 5%nat
      | _ => False
      end
    | None => False
    end
  | Raise _ => False
  end.
Proof. vm_compute. reflexivity. Qed.

(** ** Dictionaries *)

Lemma dict_get_set_eq {A} (d : dict A) k v : dict_get (dict_set d k v) k = Some v.
Proof.
  induction d as [|[k' v'] d IH]; simpl.
  - by rewrite bool_decide_eq_true_2.
  - destruct (bool_decide (k' = k)) eqn:E; simpl.
    + by rewrite bool_decide_eq_true_2.
    + by rewrite E.
Qed.

Lemma dict_get_set_ne {A} (d : dict A) k k' v :
  k ≠ k' → dict_get (dict_set d k v) k' = dict_get d k'.
Proof.
  intros Hne. induction d as [|[k0 v0] d IH]; simpl.
  - by rewrite bool_decide_eq_false_2.
  - destruct (bool_decide (k0 = k)) eqn:E; simpl.
    + apply bool_decide_eq_true_1 in E as ->.
      by rewrite !bool_decide_eq_false_2.
    + by rewrite IH.
Qed.

Lemma dict_get_set {A} (d : dict A) k k' v :
  dict_get (dict_set d k v) k' = if bool_decide (k = k') then Some v else dict_get d k'.
Proof.
  case_bool_decide; [subst; apply dict_get_set_eq | by apply dict_get_set_ne].
Qed.

Lemma fields_wf_set d f : fields_wf d → fields_wf (dict_set d (field_key f) f).
Proof.
  intros Hd k g. rewrite dict_get_set. case_bool_decide; [by intros [= <-] | apply Hd].
Qed.

Lemma fields_wf_foldl fs c :
  fields_wf (fields c) → fields_wf (fields (foldl add_field c fs)).
Proof.
  revert c. induction fs as [|f fs IH]; intros c Hc; [done|].
  simpl. apply IH. by apply fields_wf_set.
Qed.

Lemma fields_foldl_add_facet fs c : fields (foldl add_facet c fs) = fields c.
Proof. revert c. induction fs as [|f fs IH]; intros c; [done|]. simpl. by rewrite IH. Qed.

Lemma fields_foldl_add_sort fs c : fields (foldl add_sort c fs) = fields c.
Proof. revert c. induction fs as [|f fs IH]; intros c; [done|]. simpl. by rewrite IH. Qed.

Lemma fields_foldl_add_badge fs c : fields (foldl add_badge c fs) = fields c.
Proof. revert c. induction fs as [|f fs IH]; intros c; [done|]. simpl. by rewrite IH. Qed.

Lemma Composer_init_wf lib a b c d e :
  fields_wf (fields (Composer_init lib a b c d e)).
Proof.
  unfold Composer_init.
  rewrite fields_foldl_add_badge, fields_foldl_add_sort, fields_foldl_add_facet.
  apply fields_wf_foldl. intros k f. discriminate.
Qed.

Lemma append_extractor_wf c key e c' :
  append_extractor c key e = Ok c' → fields_wf (fields c) → fields_wf (fields c').
Proof.
  unfold append_extractor, dict_item. intros H Hwf.
  destruct (dict_get (fields c) key) as [f|] eqn:Hf; simpl in H; [|done].
  destruct (field_extractor f); simplify_eq. simpl.
  intros k g. rewrite dict_get_set. case_bool_decide; [|apply Hwf].
  intros [= <-]. simpl. subst. by apply Hwf.
Qed.

Lemma append_extractor_rest c key e c' :
  append_extractor c key e = Ok c' →
  facets c' = facets c ∧ sorts c' = sorts c ∧ badges c' = badges c.
Proof.
  unfold append_extractor, dict_item. intros H.
  destruct (dict_get (fields c) key) as [f|]; simpl in H; [|done].
  by destruct (field_extractor f); simplify_eq.
Qed.

Lemma facets_foldl_get fs c f :
  NoDup (facet_key <$> fs) → f ∈ fs →
  dict_get (facets (foldl add_facet c fs)) (facet_key f) = Some f.
Proof.
  revert c. induction fs as [|g fs IH]; intros c Hnd Hin; [by apply elem_of_nil in Hin|].
  simpl in *. apply NoDup_cons in Hnd as [Hg Hnd].
  apply elem_of_cons in Hin as [->|Hin]; [|by apply IH].
  clear IH Hnd. revert c. induction fs as [|h fs IH]; intros c; simpl.
  - apply dict_get_set_eq.
  - apply not_elem_of_cons in Hg as [Hne Hg].
    specialize (IH Hg (add_facet c h)).
    (* swap the two insertions *)
    assert (Hsw : ∀ c0, dict_get (facets (foldl add_facet c0 fs)) (facet_key g)
                       = dict_get (facets c0) (facet_key g)).
    { clear -Hg. induction fs as [|h' fs IH]; intros c0; [done|].
      apply not_elem_of_cons in Hg as [Hne Hg]. simpl. rewrite IH by done.
      simpl. by apply dict_get_set_ne. }
    rewrite Hsw. simpl. rewrite dict_get_set_ne by done. apply dict_get_set_eq.
Qed.

(** What a successful run of the composer part of the class body built. *)
Lemma Config_composer_inv lib c :
  Config_composer lib = Ok c →
  ∃ c0 f2 f3 f4,
    let c1 := add_field (foldl add_facet c0 Config_facets) edtechhub_field in
    c = add_sort (add_field (add_badge c1 (edtechhub_badge edtechhub_field)) boost_field)
          (hub_desc_sort edtechhub_field f2 f3 f4)
    ∧ fields_wf (fields c0)
    ∧ field_key f2 = "sort_date" ∧ field_key f3 = "sort_creator"
    ∧ field_key f4 = "sort_title"
    ∧ dict_get (fields c) "sort_date" = Some f2
    ∧ dict_get (fields c) "sort_creator" = Some f3
    ∧ dict_get (fields c) "sort_title" = Some f4.
Proof.
  unfold Config_composer. intros H.
  set (ci := add_field (add_field (Composer_init _ _ _ _ _ _) _) _) in H.
  assert (Hci : fields_wf (fields ci)).
  { subst ci. apply (fields_wf_set _ preview_field), (fields_wf_set _ (data_field lib)).
    apply Composer_init_wf. }
  destruct (append_extractor ci _ _) as [ca|] eqn:Ha; simpl in H; [|done].
  destruct (append_extractor ca _ _) as [cb|] eqn:Hb; simpl in H; [|done].
  destruct (append_extractor cb _ _) as [cc|] eqn:Hc; simpl in H; [|done].
  pose proof (append_extractor_wf _ _ _ _ Hc (append_extractor_wf _ _ _ _ Hb
                (append_extractor_wf _ _ _ _ Ha Hci))) as Hwf.
  unfold dict_item in H. simpl in H.
  rewrite !dict_get_set_eq in H. simpl in H.
  rewrite (dict_get_set_ne _ "_boost" "edtechhub") in H by done.
  rewrite dict_get_set_eq in H. simpl in H.
  rewrite !(dict_get_set_ne _ "_boost") in H by done.
  rewrite !(dict_get_set_ne _ "edtechhub") in H by done.
  destruct (dict_get _ "sort_date") as [f2|] eqn:H2; simpl in H; [|done].
  destruct (dict_get _ "sort_creator") as [f3|] eqn:H3; simpl in H; [|done].
  destruct (dict_get _ "sort_title") as [f4|] eqn:H4; simpl in H; [|done].
  injection H as <-. exists cc, f2, f3, f4. simpl. split; [done|]. split; [done|].
  split; [by apply Hwf|]. split; [by apply Hwf|]. split; [by apply Hwf|].
  rewrite !(dict_get_set_ne _ "_boost") by done.
  rewrite !(dict_get_set_ne _ "edtechhub") by done. done.
Qed.

Lemma env_str_required e n : env_str e n None = match e !! n with Some v => Ok v | None => Raise (EnvError n) end.
Proof. done. Qed.

Lemma load_inv lib w cfg :
  load lib w = Ok cfg →
  ∃ fa sk ak li lt c,
    read_env w !! "FLASK_APP" = Some fa
    ∧ read_env w !! "SECRET_KEY" = Some sk
    ∧ read_env w !! "KERKO_ZOTERO_API_KEY" = Some ak
    ∧ read_env w !! "KERKO_ZOTERO_LIBRARY_ID" = Some li
    ∧ read_env w !! "KERKO_ZOTERO_LIBRARY_TYPE" = Some lt
    ∧ Config_composer lib = Ok c
    ∧ KERKO_COMPOSER cfg = c
    ∧ app_dir cfg = pathlib.absolute (cwd w) (pathlib.parent (pathlib.Path fa))
    ∧ KERKO_DATA_DIR cfg =
        default (pathlib.to_str (app_dir cfg // "data" // "kerko"))
          (read_env w !! "KERKO_DATA_DIR").
Proof.
  unfold load, env_str. intros H.
  destruct (read_env w !! "FLASK_APP") as [fa|]; simpl in H; [|done].
  destruct (read_env w !! "SECRET_KEY") as [sk|]; simpl in H; [|done].
  destruct (read_env w !! "KERKO_ZOTERO_API_KEY") as [ak|]; simpl in H; [|done].
  destruct (read_env w !! "KERKO_ZOTERO_LIBRARY_ID") as [li|]; simpl in H; [|done].
  destruct (read_env w !! "KERKO_ZOTERO_LIBRARY_TYPE") as [lt|]; simpl in H; [|done].
  exists fa, sk, ak, li, lt.
  destruct (read_env w !! "KERKO_DATA_DIR") as [dd|]; simpl in H;
    (destruct (Config_composer lib) as [c|]; simpl in H; [|done]);
    injection H as <-; exists c; simpl; done.
Qed.

Lemma load_ok lib w fa sk ak li lt c :
  read_env w !! "FLASK_APP" = Some fa →
  read_env w !! "SECRET_KEY" = Some sk →
  read_env w !! "KERKO_ZOTERO_API_KEY" = Some ak →
  read_env w !! "KERKO_ZOTERO_LIBRARY_ID" = Some li →
  read_env w !! "KERKO_ZOTERO_LIBRARY_TYPE" = Some lt →
  Config_composer lib = Ok c →
  ∃ cfg, load lib w = Ok cfg.
Proof.
  intros H1 H2 H3 H4 H5 H6. unfold load, env_str.
  rewrite H1, H2, H3, H4, H5, H6. simpl.
  destruct (read_env w !! "KERKO_DATA_DIR"); simpl; eauto.
Qed.

(** C2 (amended): when one of the five required variables is unset once
    [env.read_env()] has merged the variables of the [.env] file into the
    environment of the process, loading fails with the error of environs
    for a required variable, and no [Config] is produced. *)
Theorem C2_unset_required_variable_fails lib w name :
  name ∈ required_variables → read_env w !! name = None →
  ∃ n, n ∈ required_variables ∧ load lib w = Raise (EnvError n).
Proof.
  intros Hin Hnone. unfold load, env_str.
  destruct (read_env w !! "FLASK_APP") eqn:H1; simpl;
    [|exists "FLASK_APP"; split; [in_list|done]].
  destruct (read_env w !! "SECRET_KEY") eqn:H2; simpl;
    [|exists "SECRET_KEY"; split; [in_list|done]].
  destruct (read_env w !! "KERKO_ZOTERO_API_KEY") eqn:H3; simpl;
    [|exists "KERKO_ZOTERO_API_KEY"; split; [in_list|done]].
  destruct (read_env w !! "KERKO_ZOTERO_LIBRARY_ID") eqn:H4; simpl;
    [|exists "KERKO_ZOTERO_LIBRARY_ID"; split; [in_list|done]].
  destruct (read_env w !! "KERKO_ZOTERO_LIBRARY_TYPE") eqn:H5; simpl;
    [|exists "KERKO_ZOTERO_LIBRARY_TYPE"; split; [in_list|done]].
  exfalso. unfold required_variables in Hin. simpl in Hin.
  repeat (apply elem_of_cons in Hin as [->|Hin]); try congruence.
  by apply elem_of_nil in Hin.
Qed.

(** C2 as stated fails: the variables may be unset in the environment of
    the process and set in the [.env] file. *)
Lemma C2_dotenv_counterexample :
  ¬ (∀ lib w name, name ∈ required_variables → environ w !! name = None →
       is_ok (load lib w) = false).
Proof.
  intros H. specialize (H sample_lib dotenv_world "FLASK_APP").
  assert (is_ok (load sample_lib dotenv_world) = true) as Hok by (vm_compute; reflexivity).
  rewrite H in Hok; [done|in_list|done].
Qed.

Lemma C2_witness :
  ∃ n, n ∈ required_variables
       ∧ load sample_lib (MkWorld (delete "SECRET_KEY" sample_environ) None
                            (u "/srv/app") (u "/srv/app/app/config.py"))
         = Raise (EnvError n).
Proof.
  apply (C2_unset_required_variable_fails _ _ "SECRET_KEY").
  - in_list.
  - vm_compute. reflexivity.
Defined.

Lemma str_join_snoc2 s ps a b :
  str_join s (ps ++ [a; b])
  = match ps with [] => [] | _ => str_join s ps ++ s end ++ a ++ s ++ b.
Proof.
  induction ps as [|p ps IH]; [reflexivity|].
  destruct ps as [|q ps]; [simpl; by rewrite <- !app_assoc|].
  change (str_join s ((p :: q :: ps) ++ [a; b]))
    with (p ++ s ++ str_join s ((q :: ps) ++ [a; b])).
  rewrite IH. change (str_join s (p :: q :: ps)) with (p ++ s ++ str_join s (q :: ps)).
  by rewrite <- !app_assoc.
Qed.

Lemma to_str_parts r ps :
  ps ≠ [] → pathlib.to_str (pathlib.MkPath r ps) = r ++ str_join [pathlib.sep] ps.
Proof. intros H. unfold pathlib.to_str. simpl. by destruct r, ps. Qed.

Lemma data_dir_default_str p :
  pathlib.to_str (p // "data" // "kerko")
  = match pathlib.parts p with
    | [] => pathlib.root p
    | _ => pathlib.to_str p ++ [pathlib.sep]
    end ++ u "data/kerko".
Proof.
  destruct p as [r ps].
  change (pathlib.to_str (pathlib.MkPath r ps // "data" // "kerko"))
    with (pathlib.to_str (pathlib.MkPath r ((ps ++ [u "data"]) ++ [u "kerko"]))).
  rewrite <- app_assoc. simpl app at 1.
  rewrite to_str_parts by (by destruct ps).
  rewrite str_join_snoc2. simpl pathlib.parts. simpl pathlib.root.
  destruct ps as [|q qs]; [reflexivity|].
  rewrite to_str_parts by done. rewrite <- !app_assoc. reflexivity.
Qed.

Lemma is_ok_true {A} (r : result A) : is_ok r = true ↔ ∃ a, r = Ok a.
Proof.
  destruct r as [a|e]; simpl; split; try done; [by exists a | by intros [a ?]].
Qed.

Lemma required_all w :
  (∀ n, n ∈ required_variables → is_Some (read_env w !! n)) →
  ∃ fa sk ak li lt,
    read_env w !! "FLASK_APP" = Some fa
    ∧ read_env w !! "SECRET_KEY" = Some sk
    ∧ read_env w !! "KERKO_ZOTERO_API_KEY" = Some ak
    ∧ read_env w !! "KERKO_ZOTERO_LIBRARY_ID" = Some li
    ∧ read_env w !! "KERKO_ZOTERO_LIBRARY_TYPE" = Some lt.
Proof.
  intros H.
  destruct (H "FLASK_APP") as [fa ?]; [in_list|].
  destruct (H "SECRET_KEY") as [sk ?]; [in_list|].
  destruct (H "KERKO_ZOTERO_API_KEY") as [ak ?]; [in_list|].
  destruct (H "KERKO_ZOTERO_LIBRARY_ID") as [li ?]; [in_list|].
  destruct (H "KERKO_ZOTERO_LIBRARY_TYPE") as [lt ?]; [in_list|].
  by exists fa, sk, ak, li, lt.
Qed.

Lemma load_succeeds lib w :
  is_ok (Config_composer lib) = true →
  (∀ n, n ∈ required_variables → is_Some (read_env w !! n)) →
  ∃ cfg, load lib w = Ok cfg.
Proof.
  intros [c Hc]%is_ok_true (fa & sk & ak & li & lt & ? & ? & ? & ? & ?)%required_all.
  by eapply load_ok.
Qed.






Lemma NoDup_fmap_inj {A B} (f : A → B) (l : list A) x y :
  NoDup (f <$> l) → x ∈ l → y ∈ l → f x = f y → x = y.
Proof.
  induction l as [|a l IH]; intros Hnd Hx Hy Heq; [by apply elem_of_nil in Hx|].
  simpl in Hnd. apply NoDup_cons in Hnd as [Ha Hnd].
  apply elem_of_cons in Hx as [->|Hx]; apply elem_of_cons in Hy as [->|Hy]; auto.
  - exfalso. apply Ha. rewrite Heq. by apply list_elem_of_fmap_2.
  - exfalso. apply Ha. rewrite <- Heq. by apply list_elem_of_fmap_2.
Qed.

Lemma sample_load : ∃ cfg, load sample_lib sample_world = Ok cfg.
Proof.
  apply load_succeeds; [vm_compute; reflexivity|].
  intros n Hn. unfold required_variables in Hn. simpl in Hn.
  repeat (apply elem_of_cons in Hn as [->|Hn]); try (vm_compute; eauto; fail).
  by apply elem_of_nil in Hn.
Qed.

Lemma Config_facets_keys_NoDup : NoDup (facet_key <$> Config_facets).
Proof. apply (bool_decide_unpack _). vm_compute. exact I. Qed.



(** C6: the 'edtechhub' badge is active for an item exactly when the
    stored 'edtechhub' value of the item is truthy,
    [bool(item.get('edtechhub'))]; an item without the field does not
    activate it. *)
Theorem C6_badge_active_iff_truthy lib w cfg :
  load lib w = Ok cfg →
  ∃ b, dict_get (badges (KERKO_COMPOSER cfg)) "edtechhub" = Some b
       ∧ field_key (badge_field b) = "edtechhub"
       ∧ ∀ item : Document,
           is_active b item = truthy (default VNone (item !! "edtechhub"))
           ∧ (is_active b item = true
              ↔ ∃ v, item !! "edtechhub" = Some v ∧ truthy v = true)
           ∧ (item !! "edtechhub" = None → is_active b item = false).
Proof.
  intros Hload.
  destruct (load_inv _ _ _ Hload) as (? & ? & ? & ? & ? & c & _ & _ & _ & _ & _ & Hc & -> & _).
  destruct (Config_composer_inv _ _ Hc) as (c0 & f2 & f3 & f4 & -> & _).
  exists (edtechhub_badge edtechhub_field). split; [apply dict_get_set_eq|].
  split; [done|]. intros item.
  change (is_active (edtechhub_badge edtechhub_field) item)
    with (truthy (default VNone (item !! "edtechhub"))).
  split; [done|]. split.
  - destruct (item !! "edtechhub") as [v|]; simpl; split.
    + eauto.
    + by intros (v' & [= <-] & ?).
    + done.
    + by intros (v' & ? & _).
  - by intros ->.
Qed.

Lemma C6_witness :
  ∃ cfg b, load sample_lib sample_world = Ok cfg
           ∧ dict_get (badges (KERKO_COMPOSER cfg)) "edtechhub" = Some b
           ∧ is_active b {[ "edtechhub" := VBool true ]} = true
           ∧ is_active b {[ "id" := VStr (u "ABCD2345") ]} = false.
Proof.
  destruct sample_load as [cfg Hcfg].
  destruct (C6_badge_active_iff_truthy sample_lib sample_world cfg Hcfg)
    as (b & Hb & _ & Hact).
  exists cfg, b. split; [exact Hcfg|]. split; [exact Hb|]. split.
  - destruct (Hact {[ "edtechhub" := VBool true ]}) as (-> & _). vm_compute. reflexivity.
  - destruct (Hact {[ "id" := VStr (u "ABCD2345") ]}) as (_ & _ & H). apply H.
    vm_compute. reflexivity.
Defined.

(** C10: the 'hub_desc' sort has the four fields 'edtechhub', 'sort_date',
    'sort_creator', 'sort_title', in this order, with the reverse flags
    [False, True, False, False]. *)
Theorem C10_hub_desc_sort_keys lib w cfg :
  load lib w = Ok cfg →
  ∃ s, dict_get (sorts (KERKO_COMPOSER cfg)) "hub_desc" = Some s
       ∧ field_key <$> sort_fields s
         = ["edtechhub"; "sort_date"; "sort_creator"; "sort_title"]
       ∧ sort_reverse s = [false; true; false; false]
       ∧ Forall2 (λ f k, dict_get (fields (KERKO_COMPOSER cfg)) k = Some f)
           (sort_fields s) ["edtechhub"; "sort_date"; "sort_creator"; "sort_title"].
Proof.
  intros Hload.
  destruct (load_inv _ _ _ Hload) as (? & ? & ? & ? & ? & c & _ & _ & _ & _ & _ & Hc & -> & _).
  destruct (Config_composer_inv _ _ Hc)
    as (c0 & f2 & f3 & f4 & -> & _ & H2 & H3 & H4 & G2 & G3 & G4).
  exists (hub_desc_sort edtechhub_field f2 f3 f4).
  split; [apply dict_get_set_eq|]. split; [simpl; by rewrite H2, H3, H4|].
  split; [done|].
  repeat (apply Forall2_cons; split); try done; try apply Forall2_nil.
  simpl. rewrite dict_get_set_ne by done. apply dict_get_set_eq.
Qed.

Lemma C10_witness :
  ∃ cfg s, load sample_lib sample_world = Ok cfg
           ∧ dict_get (sorts (KERKO_COMPOSER cfg)) "hub_desc" = Some s
           ∧ sort_reverse s = [false; true; false; false].
Proof.
  destruct sample_load as [cfg Hcfg].
  destruct (C10_hub_desc_sort_keys sample_lib sample_world cfg Hcfg)
    as (s & Hs & _ & Hr & _).
  exists cfg, s. split; [exact Hcfg|]. by split.
Defined.

(** ** Characters *)

Lemma isspace_cases x :
  isspace x = true →
  (9 ≤ x ≤ 13) ∨ (28 ≤ x ≤ 32) ∨ x = 0x85 ∨ x = 0xA0 ∨ x = 0x1680
  ∨ (0x2000 ≤ x ≤ 0x200A) ∨ x = 0x2028 ∨ x = 0x2029 ∨ x = 0x202F
  ∨ x = 0x205F ∨ x = 0x3000.
Proof. unfold isspace. intros H. bool_to_prop H. tauto. Qed.

Lemma isspace_LF : isspace LF = true.
Proof. reflexivity. Qed.

Lemma tolower_space x : isspace x = true → unicode_tolower x = x.
Proof.
  intros H%isspace_cases. unfold unicode_tolower.
  destruct (andb _ _) eqn:E1.
  { apply andb_true_iff in E1 as [?%N.leb_le ?%N.leb_le]. lia. }
  destruct (x =? 0x130) eqn:E2; [apply N.eqb_eq in E2; lia|].
  destruct (x =? 0x212A) eqn:E3; [apply N.eqb_eq in E3; lia|]. done.
Qed.

(** A literal whose lower case is not a space accepts no space. *)
Lemma accepts_lit_space l x :
  isspace (unicode_tolower l) = false → isspace x = true →
  re.accepts flags_IM (re.CLit l) x = false.
Proof.
  intros Hl Hx. simpl. rewrite (tolower_space x Hx).
  apply orb_false_iff. split.
  - apply N.eqb_neq. intros ->. congruence.
  - unfold ignorecase_fix. apply isspace_cases in Hx.
    apply orb_false_iff. split; apply andb_false_iff; right; apply N.eqb_neq; lia.
Qed.

Lemma accepts_colon x : re.accepts flags_IM (re.CLit colon) x = (x =? colon).
Proof.
  unfold re.accepts, flags_IM, re.IGNORECASE.
  change (unicode_tolower colon) with 58. unfold ignorecase_fix.
  change (58 =? 105) with false. change (58 =? 115) with false.
  simpl andb. simpl orb. rewrite orb_false_r.
  unfold unicode_tolower, colon.
  destruct (andb _ _) eqn:E1.
  { apply andb_true_iff in E1 as [?%N.leb_le ?%N.leb_le].
    rewrite (proj2 (N.eqb_neq (x + 32) 58)), (proj2 (N.eqb_neq x 58)) by lia. done. }
  destruct (x =? 0x130) eqn:E2.
  { apply N.eqb_eq in E2 as ->. reflexivity. }
  destruct (x =? 0x212A) eqn:E3.
  { apply N.eqb_eq in E3 as ->. reflexivity. }
  done.
Qed.

(** ** Prefixes cut by a predicate *)

Lemma take_drop_while p s : take_while p s ++ drop_while p s = s.
Proof. induction s as [|x s IH]; simpl; [done|]. destruct (p x); simpl; congruence. Qed.

Lemma take_while_all p s : Forall (λ x, p x = true) (take_while p s).
Proof.
  induction s as [|x s IH]; simpl; [constructor|].
  destruct (p x) eqn:E; by constructor.
Qed.

Lemma drop_while_head p s x s' : drop_while p s = x :: s' → p x = false.
Proof.
  induction s as [|y s IH]; simpl; [done|].
  destruct (p y) eqn:E; [done|]. by intros [= -> _].
Qed.

Lemma drop_while_app_ne p s t x s' :
  drop_while p s = x :: s' → drop_while p (s ++ t) = x :: s' ++ t.
Proof.
  induction s as [|y s IH]; simpl; [done|].
  destruct (p y); [done|]. by intros [= -> ->].
Qed.

Lemma drop_while_app_nil p s t :
  drop_while p s = [] → drop_while p (s ++ t) = drop_while p t.
Proof.
  induction s as [|y s IH]; simpl; [done|]. by destruct (p y).
Qed.

Lemma drop_while_nil_all p s : drop_while p s = [] ↔ Forall (λ x, p x = true) s.
Proof.
  induction s as [|y s IH]; simpl; [by split; [constructor|]|].
  destruct (p y) eqn:E.
  - rewrite IH. split; [by constructor|by inversion 1].
  - split; [done|]. inversion 1; congruence.
Qed.

Lemma drop_while_stop p s : match s with [] => True | x :: _ => p x = false end →
  drop_while p s = s.
Proof. destruct s as [|x s]; simpl; [done|]. by intros ->. Qed.

Lemma take_while_app_stop p s t :
  match t with [] => True | x :: _ => p x = false end →
  Forall (λ x, p x = true) s → take_while p (s ++ t) = s.
Proof.
  intros Ht. induction 1 as [|x s Hx _ IH]; simpl.
  - destruct t as [|y t]; simpl; [done|]. by rewrite Ht.
  - by rewrite Hx, IH.
Qed.

Lemma take_while_app_ne p s t :
  drop_while p s ≠ [] → take_while p (s ++ t) = take_while p s.
Proof.
  induction s as [|y s IH]; simpl; [done|].
  destruct (p y); [|done]. intros H. by rewrite IH.
Qed.

Lemma take_length_drop_while p s :
  take (length s - length (drop_while p s)) s = take_while p s.
Proof.
  rewrite <- (take_drop_while p s) at 1 3. rewrite length_app.
  replace (length (take_while p s) + length (drop_while p s) - length (drop_while p s))%nat
    with (length (take_while p s)) by lia.
  by rewrite take_app_length.
Qed.

Lemma forallb_Forall (p : char → bool) s : forallb p s = true ↔ Forall (λ x, p x = true) s.
Proof.
  induction s as [|x s IH]; simpl; [by split; [constructor|]|].
  rewrite andb_true_iff, IH. split; [intros []; by constructor|by inversion 1].
Qed.

(** ** The matcher *)

Lemma repeat_prev fl c k : prev_free k → prev_free (re.repeat fl c k).
Proof.
  intros Hk p p' s. revert p p'. induction s as [|x s IH]; intros p p' cs; simpl.
  - apply Hk.
  - destruct (re.accepts fl c x); [|apply Hk]. by rewrite (Hk p p').
Qed.

Lemma exec_prev fl r : no_bol r = true → prev_free (re.exec fl r).
Proof.
  induction r as [|n r IH]; intros Hr; [by intros p p' s cs|].
  simpl in Hr. destruct n; simpl in Hr; [discriminate | | | | | |];
    specialize (IH Hr); intros p p' s cs; simpl.
  - destruct (re.at_eol fl s); [apply IH|reflexivity].
  - destruct s as [|x s]; reflexivity.
  - by apply repeat_prev.
  - destruct s as [|x s]; reflexivity.
  - apply IH.
  - apply IH.
Qed.

(** When the rest of the pattern cannot start with a character of the
    class, the repetition takes its longest run and never gives back. *)
Lemma repeat_skip fl c k p s cs :
  prev_free k →
  (∀ p x s cs, re.accepts fl c x = true → k p (x :: s) cs = None) →
  re.repeat fl c k p s cs = k None (drop_while (re.accepts fl c) s) cs.
Proof.
  intros Hk Hfail. revert p. induction s as [|x s IH]; intros p; simpl.
  - apply Hk.
  - destruct (re.accepts fl c x) eqn:E; [|apply Hk].
    rewrite IH. destruct (k None _ cs) eqn:E'; [done|]. by apply Hfail.
Qed.

(** When the rest of the pattern matches after the longest run, that is the
    match. *)
Lemma repeat_greedy fl c k p s cs r :
  prev_free k →
  k None (drop_while (re.accepts fl c) s) cs = Some r →
  re.repeat fl c k p s cs = Some r.
Proof.
  intros Hk. revert p. induction s as [|x s IH]; intros p; simpl.
  - by rewrite (Hk p None).
  - destruct (re.accepts fl c x) eqn:E; [|by rewrite (Hk p None)].
    intros H. by rewrite (IH _ H).
Qed.

Lemma exec_ones fl cs r p s caps :
  no_bol r = true →
  re.exec fl ((re.One <$> cs) ++ r) p s caps
  = match ones fl cs s with
    | Some s' => re.exec fl r None s' caps
    | None => None
    end.
Proof.
  intros Hr. revert p s. induction cs as [|c cs IH]; intros p s; simpl.
  - by apply exec_prev.
  - destruct s as [|x s]; [done|]. destruct (re.accepts fl c x); [apply IH|done].
Qed.

Lemma ones_app fl cs s s' t :
  ones fl cs s = Some s' → ones fl cs (s ++ t) = Some (s' ++ t).
Proof.
  revert s. induction cs as [|c cs IH]; intros s; simpl; [by intros [= ->]|].
  destruct s as [|x s]; [done|]. simpl. destruct (re.accepts fl c x); [apply IH|done].
Qed.

(** A run of characters that ends before a line feed reads the same with
    more text behind the line feed. *)
Lemma ones_app_LF fl cs s t :
  reject_LF fl cs = true →
  ones fl cs (s ++ LF :: t) = (λ s', s' ++ LF :: t) <$> ones fl cs s.
Proof.
  revert s. induction cs as [|c cs IH]; intros s Hcs; simpl; [done|].
  simpl in Hcs. apply andb_true_iff in Hcs as [Hc Hcs].
  destruct s as [|x s]; simpl.
  - apply negb_true_iff in Hc. by rewrite Hc.
  - destruct (re.accepts fl c x); [by apply IH|done].
Qed.

Lemma ones_suffix fl cs s s' :
  ones fl cs s = Some s' → ∃ a, s = a ++ s' ∧ length a = length cs.
Proof.
  revert s. induction cs as [|c cs IH]; intros s; simpl.
  - intros [= ->]. by exists [].
  - destruct s as [|x s]; [done|]. destruct (re.accepts fl c x); [|done].
    intros (a & -> & Hl)%IH. exists (x :: a). simpl. by rewrite Hl.
Qed.

Lemma repeat_consuming fl c k m : consuming m k → consuming m (re.repeat fl c k).
Proof.
  intros Hk p s. revert p. induction s as [|x s IH]; intros p cs cs' rest; simpl.
  - apply Hk.
  - destruct (re.accepts fl c x); [|apply Hk].
    destruct (re.repeat fl c k (Some x) s cs) as [[cs1 r1]|] eqn:E; [|apply Hk].
    intros [= -> ->]. destruct (IH _ _ _ _ E) as (a & -> & Hl).
    exists (x :: a). simpl. split; [done|lia].
Qed.

Lemma consuming_S m k : consuming m k →
  ∀ x s p cs cs' rest, k p s cs = Some (cs', rest) →
    ∃ a, x :: s = a ++ rest ∧ (S m ≤ length a)%nat.
Proof.
  intros Hk x s p cs cs' rest (a & -> & Hl)%Hk. exists (x :: a). simpl. split; [done|lia].
Qed.

Lemma exec_consuming fl r : consuming (min_len r) (re.exec fl r).
Proof.
  induction r as [|n r IH]; simpl.
  - intros p s cs cs' rest [= -> ->]. exists []. simpl. split; [done|lia].
  - destruct n; simpl.
    + intros p s cs cs' rest. destruct (re.at_bol fl p); [apply IH|done].
    + intros p s cs cs' rest. destruct (re.at_eol fl s); [apply IH|done].
    + intros p s cs cs' rest. destruct s as [|x s]; [done|].
      destruct (re.accepts fl c x); [|done]. by apply consuming_S.
    + by apply repeat_consuming.
    + intros p s cs cs' rest. destruct s as [|x s]; [done|].
      destruct (re.accepts fl c x); [|done].
      apply (consuming_S _ (re.repeat fl c (re.exec fl r))).
      by apply repeat_consuming.
    + intros p s cs cs' rest. apply IH.
    + intros p s cs cs' rest. apply IH.
Qed.

(** ** The scan *)

Lemma scan_groups fl r prev pos s skip :
  re.m_group1 <$> re.scan fl r prev pos s skip = gscan fl r prev s skip.
Proof.
  revert prev pos skip. induction s as [|x s IH]; intros prev pos skip.
  - simpl. destruct skip; [|done]. by destruct (re.exec fl r prev [] re.no_caps) as [[??]|].
  - simpl. destruct skip.
    + destruct (re.exec fl r prev (x :: s) re.no_caps) as [[cs rest]|]; simpl;
        by rewrite IH.
    + simpl. by rewrite IH.
Qed.

Lemma gscan_skip fl r prev a s :
  gscan fl r prev (a ++ s) (length a) = gscan fl r (lastp prev a) s 0.
Proof.
  revert prev. induction a as [|x a IH]; intros prev; [done|].
  simpl. rewrite IH. f_equal. unfold lastp. rewrite last_cons.
  by destruct (last a).
Qed.

Lemma gscan_match fl r prev s cs rest :
  re.exec fl r prev s re.no_caps = Some (cs, rest) → (1 ≤ min_len r)%nat →
  ∃ p', gscan fl r prev s 0 = re.group1 cs :: gscan fl r p' rest 0.
Proof.
  intros H Hmin. destruct (exec_consuming fl r _ _ _ _ _ H) as (a & -> & Hl).
  destruct a as [|x a]; [simpl in Hl; lia|].
  exists (lastp (Some x) a). simpl gscan at 1. simpl app in H. rewrite H.
  f_equal. rewrite length_app.
  replace (pred (S (length a + length rest) - length rest)) with (length a) by lia.
  apply gscan_skip.
Qed.

Lemma gscan_miss fl r prev x s :
  re.exec fl r prev (x :: s) re.no_caps = None →
  gscan fl r prev (x :: s) 0 = gscan fl r (Some x) s 0.
Proof. simpl. by intros ->. Qed.

Lemma gscan_end fl r prev :
  (1 ≤ min_len r)%nat → gscan fl r prev [] 0 = [].
Proof.
  intros Hmin. simpl. destruct (re.exec fl r prev [] re.no_caps) as [[cs rest]|] eqn:E; [|done].
  destruct (exec_consuming fl r _ _ _ _ _ E) as (a & Ha & Hl).
  destruct a; [simpl in Hl; lia|done].
Qed.

(** Inside a line no attempt of a pattern that starts with [^] succeeds. *)
Lemma gscan_inline fl r a x s :
  x ≠ LF → Forall (λ y, y ≠ LF) a →
  gscan fl (re.Bol :: r) (Some x) (a ++ s) 0
  = gscan fl (re.Bol :: r) (lastp (Some x) a) s 0.
Proof.
  intros Hx Ha. revert x Hx. induction Ha as [|y a Hy _ IH]; intros x Hx; [done|].
  simpl app. rewrite gscan_miss.
  - rewrite IH by done. f_equal. unfold lastp. rewrite last_cons. by destruct (last a).
  - simpl. replace (x =? LF) with false by (symmetry; by apply N.eqb_neq).
    by rewrite andb_false_r.
Qed.

(** ** Literal patterns without flags *)

Lemma ones_literal pat s :
  ones re.no_flags (re.CLit <$> pat) s = starts_with pat s.
Proof.
  revert s. induction pat as [|c pat IH]; intros s; [done|].
  destruct s as [|x s]; [done|]. simpl. rewrite (N.eqb_sym x c).
  destruct (c =? x); [apply IH|done].
Qed.

Lemma starts_with_Some pat s r : starts_with pat s = Some r ↔ s = pat ++ r.
Proof.
  revert s. induction pat as [|c pat IH]; intros s; simpl.
  - split; [by intros [= ->]|by intros ->].
  - destruct s as [|x s]; [by split|].
    destruct (c =? x) eqn:E.
    + apply N.eqb_eq in E as ->. rewrite IH. split; [by intros ->|by intros [= ->]].
    + apply N.eqb_neq in E. split; [done|]. intros [= -> _]. done.
Qed.

Lemma starts_with_app pat r : starts_with pat (pat ++ r) = Some r.
Proof. by apply starts_with_Some. Qed.

Lemma scan_after_start r x pos s skip :
  re.scan re.no_flags (re.Bol :: r) (Some x) pos s skip = [].
Proof.
  revert x pos skip. induction s as [|y s IH]; intros x pos skip.
  - simpl. by destruct skip.
  - simpl. destruct skip; simpl; apply IH.
Qed.

Lemma compile_open :
  re.compile "^<span>" = re.Bol :: (re.One <$> (re.CLit <$> span_open)).
Proof. reflexivity. Qed.

Lemma compile_close :
  re.compile "</span>$" = (re.One <$> (re.CLit <$> span_close)) ++ [re.Eol].
Proof. reflexivity. Qed.

Lemma exec_open p s cs :
  re.exec re.no_flags (re.One <$> (re.CLit <$> span_open)) p s cs
  = (λ r, (cs, r)) <$> starts_with span_open s.
Proof.
  rewrite <- (app_nil_r (re.One <$> _)), exec_ones by done.
  rewrite ones_literal. by destruct (starts_with span_open s).
Qed.

Lemma sub_open_match v :
  re.sub (re.compile "^<span>") re.no_flags csl_entry_div (span_open ++ v) 1
  = csl_entry_div ++ v.
Proof.
  rewrite compile_open. unfold re.sub, re.finditer.
  change (span_open ++ v) with (60 :: (u "span>" ++ v)).
  cbn [re.scan]. change (60 :: u "span>" ++ v) with (span_open ++ v).
  cbn [re.exec re.at_bol]. rewrite exec_open, starts_with_app. cbn [fmap option_fmap option_map].
  rewrite scan_after_start. cbn [take re.rebuild re.m_start re.m_end].
  rewrite Nat.sub_0_r, Nat.add_0_l, length_app.
  replace (length span_open + length v - length v)%nat with (length span_open) by lia.
  by rewrite Nat.sub_0_r, drop_app_length.
Qed.

Lemma sub_open_miss s :
  (∀ v, s ≠ span_open ++ v) →
  re.sub (re.compile "^<span>") re.no_flags csl_entry_div s 1 = s.
Proof.
  intros Hs. rewrite compile_open. unfold re.sub, re.finditer.
  assert (E : re.exec re.no_flags (re.Bol :: (re.One <$> (re.CLit <$> span_open)))
                None s re.no_caps = None).
  { cbn [re.exec re.at_bol]. rewrite exec_open.
    destruct (starts_with span_open s) as [r|] eqn:E; [|done].
    apply starts_with_Some in E. by destruct (Hs r). }
  destruct s as [|x s]; cbn [re.scan]; rewrite E; [done|].
  by rewrite scan_after_start.
Qed.

Lemma at_eol_no_flags s : re.at_eol re.no_flags s = true ↔ s = [] ∨ s = [LF].
Proof.
  destruct s as [|x [|y s]]; simpl.
  - by split; [left|].
  - rewrite N.eqb_eq. split; [intros ->; by right|by intros [|[= ->]]].
  - split; [done|by intros [|]].
Qed.

Lemma exec_close p s :
  re.exec re.no_flags ((re.One <$> (re.CLit <$> span_close)) ++ [re.Eol]) p s re.no_caps
  = match starts_with span_close s with
    | Some r => if re.at_eol re.no_flags r then Some (re.no_caps, r) else None
    | None => None
    end.
Proof. rewrite exec_ones by done. by rewrite ones_literal. Qed.

Lemma exec_close_Some p s cs r :
  re.exec re.no_flags ((re.One <$> (re.CLit <$> span_close)) ++ [re.Eol]) p s re.no_caps
  = Some (cs, r) →
  s = span_close ∨ s = span_close ++ [LF].
Proof.
  rewrite exec_close. destruct (starts_with span_close s) as [r'|] eqn:E; [|done].
  apply starts_with_Some in E as ->.
  destruct (re.at_eol re.no_flags r') eqn:E'; [|done].
  apply at_eol_no_flags in E' as [->| ->]; [left; by rewrite app_nil_r|by right].
Qed.

Lemma close_tail_longer x v t :
  close_tail t → ¬ close_tail (x :: v ++ t).
Proof.
  intros [-> | ->] [H|H].
  - apply (f_equal length) in H. simpl in H. rewrite length_app in H. simpl in H. lia.
  - destruct v as [|y v]; [by injection H|].
    apply (f_equal length) in H. simpl in H. rewrite length_app in H. simpl in H. lia.
  - apply (f_equal length) in H. simpl in H. rewrite length_app in H. simpl in H. lia.
  - apply (f_equal length) in H. simpl in H. rewrite length_app in H. simpl in H. lia.
Qed.

Lemma scan_close_match v t prev pos :
  close_tail t →
  re.scan re.no_flags ((re.One <$> (re.CLit <$> span_close)) ++ [re.Eol]) prev pos (v ++ t) 0
  = [re.MkMatch (pos + length v) (pos + length v + 7) None].
Proof.
  intros Ht. revert prev pos. induction v as [|x v IH]; intros prev pos.
  - simpl length. rewrite Nat.add_0_r. destruct Ht as [-> | ->]; reflexivity.
  - simpl app. cbn [re.scan].
    destruct (re.exec _ _ prev (x :: v ++ t) _) as [[cs r]|] eqn:E.
    + apply exec_close_Some in E. by destruct (close_tail_longer x v t Ht).
    + rewrite IH. simpl length. do 2 f_equal; lia.
Qed.

Lemma scan_close_miss s prev pos :
  (∀ v, s ≠ v ++ span_close) → (∀ v, s ≠ v ++ span_close ++ [LF]) →
  re.scan re.no_flags ((re.One <$> (re.CLit <$> span_close)) ++ [re.Eol]) prev pos s 0 = [].
Proof.
  revert prev pos. induction s as [|x s IH]; intros prev pos H1 H2; [reflexivity|].
  cbn [re.scan].
  destruct (re.exec _ _ prev (x :: s) _) as [[cs r]|] eqn:E.
  - apply exec_close_Some in E as [E|E]; [by destruct (H1 [])|by destruct (H2 [])].
  - apply IH; intros v ->; [by apply (H1 (x :: v))|by apply (H2 (x :: v))].
Qed.

Lemma sub_close_match v t :
  close_tail t →
  re.sub (re.compile "</span>$") re.no_flags (u "</div>") (v ++ t) 1
  = v ++ u "</div>" ++ drop 7 t.
Proof.
  intros Ht. rewrite compile_close. unfold re.sub, re.finditer.
  rewrite scan_close_match by done.
  cbn [take re.rebuild re.m_start re.m_end].
  rewrite Nat.add_0_l, !Nat.sub_0_r, take_app_length.
  by rewrite drop_app_add.
Qed.

Lemma sub_close_miss s :
  (∀ v, s ≠ v ++ span_close) → (∀ v, s ≠ v ++ span_close ++ [LF]) →
  re.sub (re.compile "</span>$") re.no_flags (u "</div>") s 1 = s.
Proof.
  intros H1 H2. rewrite compile_close. unfold re.sub, re.finditer.
  by rewrite scan_close_miss.
Qed.

(** C5 (amended): the transformers of the 'preview' field replace a leading
    [<span>] by [<div class="csl-entry">] and a closing [</span>] that ends
    the citation, or that is followed only by one final line feed, by
    [</div>]; each at most once, and a citation with neither is unchanged. *)
Theorem C5_preview_rewraps_the_citation :
  (∀ v, preview_open (VStr (u "<span>" ++ v)) = Ok (VStr (csl_entry_div ++ v)))
  ∧ (∀ s, (∀ v, s ≠ u "<span>" ++ v) → preview_open (VStr s) = Ok (VStr s))
  ∧ (∀ v, preview_close (VStr (v ++ u "</span>")) = Ok (VStr (v ++ u "</div>")))
  ∧ (∀ v, preview_close (VStr (v ++ u "</span>" ++ [LF]))
          = Ok (VStr (v ++ u "</div>" ++ [LF])))
  ∧ (∀ s, (∀ v, s ≠ v ++ u "</span>") → (∀ v, s ≠ v ++ u "</span>" ++ [LF]) →
          preview_close (VStr s) = Ok (VStr s))
  ∧ (∀ item s, item_formats item !! "citation" = Some (VStr s) →
       extract preview_extractor item
       = Some (preview_open (VStr s) ≫= preview_close))
  ∧ (∀ item body,
       item_formats item !! "citation"
         = Some (VStr (u "<span>" ++ body ++ u "</span>")) →
       extract preview_extractor item
       = Some (Ok (VStr (csl_entry_div ++ body ++ u "</div>")))).
Proof.
  assert (H1 : ∀ v, preview_open (VStr (u "<span>" ++ v)) = Ok (VStr (csl_entry_div ++ v))).
  { intros v. unfold preview_open. f_equal. f_equal. apply sub_open_match. }
  assert (H3 : ∀ v, preview_close (VStr (v ++ u "</span>")) = Ok (VStr (v ++ u "</div>"))).
  { intros v. unfold preview_close. do 2 f_equal.
    exact (sub_close_match v span_close (or_introl eq_refl)). }
  assert (H6 : ∀ item s, item_formats item !! "citation" = Some (VStr s) →
       extract preview_extractor item = Some (preview_open (VStr s) ≫= preview_close)).
  { intros item s Hs. unfold preview_extractor. cbn [extract]. rewrite Hs. reflexivity. }
  split; [done|]. split.
  { intros s Hs. unfold preview_open. do 2 f_equal. by apply sub_open_miss. }
  split; [done|]. split.
  { intros v. unfold preview_close. do 2 f_equal.
    exact (sub_close_match v (span_close ++ [LF]) (or_intror eq_refl)). }
  split.
  { intros s Hs1 Hs2. unfold preview_close. do 2 f_equal. by apply sub_close_miss. }
  split; [done|].
  intros item body Hs. rewrite (H6 _ _ Hs), H1. cbn [mbind result_bind].
  rewrite app_assoc, H3. by rewrite <- app_assoc.
Qed.

Lemma C5_witness :
  preview_open (VStr (u "Hub (2020)")) = Ok (VStr (u "Hub (2020)")).
Proof.
  apply C5_preview_rewraps_the_citation.
  intros v H. discriminate H.
Defined.

(** C5 as stated fails: a citation with neither the prefix nor the suffix
    is changed when its closing tag is followed by a final line feed. *)
Lemma C5_final_newline_counterexample :
  ¬ (∀ s, (∀ v, s ≠ u "<span>" ++ v) → (∀ v, s ≠ v ++ u "</span>") →
       apply_transformers [preview_open; preview_close] (VStr s) = Ok (VStr s)).
Proof.
  intros H. specialize (H (u "a</span>" ++ [LF])).
  assert (E : apply_transformers [preview_open; preview_close]
                (VStr (u "a</span>" ++ [LF])) = Ok (VStr (u "a</div>" ++ [LF])))
    by (vm_compute; reflexivity).
  rewrite H in E.
  - discriminate E.
  - intros v Hv. discriminate Hv.
  - intros v Hv. apply (f_equal (@rev char)) in Hv. rewrite !rev_app_distr in Hv.
    vm_compute in Hv. discriminate Hv.
Qed.

Lemma compile_EdTechHub :
  re.compile "^\s*EdTechHub.ItemAlsoKnownAs\s*:\s*(.*)$"
  = label_head EdTechHub_label ++ tail_rest.
Proof. vm_compute. reflexivity. Qed.

Lemma compile_KerkoCite :
  re.compile "^\s*KerkoCite.ItemAlsoKnownAs\s*:\s*(.*)$"
  = label_head KerkoCite_label ++ tail_rest.
Proof. vm_compute. reflexivity. Qed.

Lemma compile_shortDOI :
  re.compile "^\s*shortDOI\s*:\s*(\S+)\s*$" = label_head shortDOI_label ++ tail_token.
Proof. vm_compute. reflexivity. Qed.

Lemma no_bol_app r1 r2 : no_bol (r1 ++ r2) = no_bol r1 && no_bol r2.
Proof. unfold no_bol. apply forallb_app. Qed.

Lemma no_bol_ones cs : no_bol (re.One <$> cs) = true.
Proof. by induction cs. Qed.

Lemma ones_space cs x s :
  starts_with_letter cs → isspace x = true → ones flags_IM cs (x :: s) = None.
Proof.
  intros (l & cs' & -> & Hl) Hx. cbn [ones].
  by rewrite (accepts_lit_space l x Hl Hx).
Qed.

Lemma isspace_not_colon x : isspace x = true → (x =? colon) = false.
Proof. intros Hx. apply N.eqb_neq. intros ->. done. Qed.

Lemma exec_head cs tl p s :
  no_bol tl = true → starts_with_letter cs →
  (∀ s0 cs0, re.repeat flags_IM re.CSpace (re.exec flags_IM tl) None s0 cs0
             = re.exec flags_IM tl None (lstrip s0) cs0) →
  re.exec flags_IM (label_head cs ++ tl) p s re.no_caps
  = if re.at_bol flags_IM p then
      match after_label cs s with
      | Some s5 => re.exec flags_IM tl None s5 re.no_caps
      | None => None
      end
    else None.
Proof.
  intros Htl Hcs Hrep. unfold label_head. rewrite <- !app_assoc.
  change ([re.Bol; re.Star re.CSpace] ++ ?r) with (re.Bol :: re.Star re.CSpace :: r).
  cbn [re.exec]. destruct (re.at_bol flags_IM p); [|done].
  set (r2 := [re.Star re.CSpace; re.One (re.CLit colon); re.Star re.CSpace] ++ tl).
  assert (Hr2 : no_bol r2 = true) by (subst r2; rewrite no_bol_app, Htl; reflexivity).
  rewrite repeat_skip; cycle 1.
  { apply exec_prev. by rewrite no_bol_app, no_bol_ones, Hr2. }
  { intros p0 x s0 cs0 Hx. rewrite exec_ones by done. by rewrite ones_space. }
  rewrite exec_ones by done.
  unfold after_label, body, lstrip. change (re.accepts flags_IM re.CSpace) with isspace.
  destruct (ones flags_IM cs (drop_while isspace s)) as [s2|]; [|done].
  subst r2. cbn [mbind option_bind app re.exec].
  rewrite repeat_skip; cycle 1.
  { apply (exec_prev flags_IM (re.One (re.CLit colon) :: re.Star re.CSpace :: tl)).
    exact Htl. }
  { intros p0 x s0 cs0 Hx. cbn [re.exec]. rewrite accepts_colon.
    by rewrite isspace_not_colon. }
  change (re.accepts flags_IM re.CSpace) with isspace.
  destruct (drop_while isspace s2) as [|x s4]; [done|].
  cbn [re.exec]. rewrite accepts_colon. destruct (x =? colon); [|done].
  rewrite (repeat_prev flags_IM re.CSpace (re.exec flags_IM tl)
             (exec_prev _ _ Htl) (Some x) None).
  apply Hrep.
Qed.

(** *** The rest-of-line tail always matches, up to the end of the line *)

Lemma at_eol_drop_notLF s : re.at_eol flags_IM (drop_while notLF s) = true.
Proof.
  destruct (drop_while notLF s) as [|x s'] eqn:E; [done|].
  apply drop_while_head in E. unfold notLF in E. apply negb_false_iff in E.
  simpl. rewrite E. by destruct s'.
Qed.

Lemma exec_tail_rest p s cs :
  re.exec flags_IM tail_rest p s cs
  = Some (re.Caps (Some s) (Some (take_while notLF s)), drop_while notLF s).
Proof.
  unfold tail_rest. cbn [re.exec].
  apply repeat_greedy; [by apply (exec_prev flags_IM [re.GClose; re.Eol])|].
  change (re.accepts flags_IM re.CAny) with notLF.
  cbn [re.exec]. rewrite at_eol_drop_notLF.
  unfold re.close_group, re.open_group. cbn [re.gopen re.group1].
  by rewrite take_length_drop_while.
Qed.

Lemma repeat_tail_rest s0 cs0 :
  re.repeat flags_IM re.CSpace (re.exec flags_IM tail_rest) None s0 cs0
  = re.exec flags_IM tail_rest None (lstrip s0) cs0.
Proof.
  rewrite exec_tail_rest. apply repeat_greedy; [by apply exec_prev|].
  apply exec_tail_rest.
Qed.

Lemma exec_rest cs p s :
  starts_with_letter cs →
  re.exec flags_IM (label_head cs ++ tail_rest) p s re.no_caps
  = if re.at_bol flags_IM p then
      (λ s5, (re.Caps (Some s5) (Some (take_while notLF s5)), drop_while notLF s5))
        <$> after_label cs s
    else None.
Proof.
  intros Hcs. rewrite exec_head; [|done|done|apply repeat_tail_rest].
  destruct (re.at_bol flags_IM p); [|done].
  destruct (after_label cs s); [|done]. apply exec_tail_rest.
Qed.

(** *** The token tail *)

Lemma exec_trail p s cs :
  re.repeat flags_IM re.CSpace (re.exec flags_IM [re.Eol]) p s cs
  = (λ r, (cs, r)) <$> trail s.
Proof.
  revert p. induction s as [|x s IH]; intros p; [done|].
  cbn [re.repeat trail]. change (re.accepts flags_IM re.CSpace x) with (isspace x).
  assert (Heol : re.exec flags_IM [re.Eol] p (x :: s) cs
                 = if x =? LF then Some (cs, x :: s) else None).
  { cbn [re.exec]. replace (re.at_eol flags_IM (x :: s)) with (x =? LF);
      [done|by destruct s]. }
  destruct (isspace x) eqn:Hx.
  - rewrite IH. destruct (trail s); [done|].
    cbn [fmap option_fmap option_map]. rewrite Heol. by destruct (x =? LF).
  - rewrite Heol. destruct (x =? LF) eqn:E; [|done].
    apply N.eqb_eq in E as ->. done.
Qed.

Lemma exec_tail_token p s cs :
  re.exec flags_IM tail_token p s cs
  = match take_while nonspace s with
    | [] => None
    | t => (λ r, (re.Caps (Some s) (Some t), r)) <$> trail (drop_while nonspace s)
    end.
Proof.
  unfold tail_token. cbn [re.exec]. destruct s as [|x s]; [done|].
  change (re.accepts flags_IM re.CNotSpace x) with (nonspace x).
  cbn [take_while drop_while]. destruct (nonspace x) eqn:Hx; [|done].
  rewrite repeat_skip; cycle 1.
  { by apply (exec_prev flags_IM [re.GClose; re.Star re.CSpace; re.Eol]). }
  { intros p0 y s0 cs0 Hy. cbn [re.exec re.repeat].
    change (re.accepts flags_IM re.CNotSpace y) with (negb (isspace y)) in Hy.
    apply negb_true_iff in Hy. change (re.accepts flags_IM re.CSpace y) with (isspace y).
    rewrite Hy. replace (re.at_eol flags_IM (y :: s0)) with (y =? LF) by (by destruct s0).
    destruct (y =? LF) eqn:E; [|done]. apply N.eqb_eq in E as ->. done. }
  change (re.accepts flags_IM re.CNotSpace) with nonspace.
  cbn [re.exec]. rewrite exec_trail.
  destruct (trail (drop_while nonspace s)) as [r|]; [|done].
  cbn [fmap option_fmap option_map]. do 2 f_equal.
  unfold re.close_group, re.open_group. cbn [re.gopen re.group1]. do 2 f_equal.
  pose proof (take_length_drop_while nonspace (x :: s)) as H.
  cbn [take_while drop_while] in H. by rewrite Hx in H.
Qed.

Lemma repeat_tail_token s0 cs0 :
  re.repeat flags_IM re.CSpace (re.exec flags_IM tail_token) None s0 cs0
  = re.exec flags_IM tail_token None (lstrip s0) cs0.
Proof.
  apply repeat_skip; [by apply exec_prev|].
  intros p x s cs Hx. rewrite exec_tail_token. cbn [take_while].
  unfold nonspace. change (re.accepts flags_IM re.CSpace x) with (isspace x) in Hx.
  by rewrite Hx.
Qed.

Lemma exec_token cs p s :
  starts_with_letter cs →
  re.exec flags_IM (label_head cs ++ tail_token) p s re.no_caps
  = if re.at_bol flags_IM p then
      s5 ← after_label cs s;
      match take_while nonspace s5 with
      | [] => None
      | t => (λ r, (re.Caps (Some s5) (Some t), r)) <$> trail (drop_while nonspace s5)
      end
    else None.
Proof.
  intros Hcs. rewrite exec_head; [|done|done|apply repeat_tail_token].
  destruct (re.at_bol flags_IM p); [|done].
  destruct (after_label cs s); [|done]. apply exec_tail_token.
Qed.

Lemma min_len_head cs tl : (1 ≤ length cs)%nat → (1 ≤ min_len (label_head cs ++ tl))%nat.
Proof.
  destruct cs as [|c cs]; simpl; [lia|]. intros _. lia.
Qed.

(** ** The matches of a scan come in the order of the text *)

Lemma scan_starts fl r s prev pos skip m :
  m ∈ re.scan fl r prev pos s skip → (pos + skip ≤ re.m_start m)%nat.
Proof.
  revert prev pos skip. induction s as [|x s IH]; intros prev pos skip; cbn [re.scan].
  - destruct skip; [|by intros ?%elem_of_nil].
    destruct (re.exec fl r prev [] re.no_caps) as [[cs rest]|]; [|by intros ?%elem_of_nil].
    intros ->%list_elem_of_singleton. simpl. lia.
  - destruct skip.
    + destruct (re.exec fl r prev (x :: s) re.no_caps) as [[cs rest]|].
      * intros [->|Hm%IH]%elem_of_cons; simpl; lia.
      * intros Hm%IH. lia.
    + intros Hm%IH. simpl in Hm. lia.
Qed.

Lemma scan_ordered fl r s prev pos skip m1 m2 ms :
  re.scan fl r prev pos s skip = m1 :: m2 :: ms → (re.m_end m1 ≤ re.m_start m2)%nat.
Proof.
  revert prev pos skip. induction s as [|x s IH]; intros prev pos skip; cbn [re.scan].
  - destruct skip; [|done].
    by destruct (re.exec fl r prev [] re.no_caps) as [[cs rest]|].
  - destruct skip.
    + destruct (re.exec fl r prev (x :: s) re.no_caps) as [[cs rest]|]; [|apply IH].
      intros [= <- H]. simpl.
      assert (Hm : m2 ∈ m2 :: ms) by apply list_elem_of_here.
      rewrite <- H in Hm. apply scan_starts in Hm. simpl in Hm. lia.
    + apply IH.
Qed.

(** ** What [find] with [max_matches=1] returns *)

Lemma find_first regex text :
  transformers.find regex flags_IM 1 (VStr text)
  = Ok (VStr (default [] (mjoin (head (gscan flags_IM (re.compile regex) None text 0))))).
Proof.
  unfold transformers.find, re.finditer. do 2 f_equal.
  rewrite <- (scan_groups _ _ _ 0%nat).
  by destruct (re.scan flags_IM (re.compile regex) None 0 text 0) as [|m ms].
Qed.

Lemma extract_find_split regex sep item text :
  item_data item !! "extra" = Some (VStr text) →
  extract (TransformerExtractor (ItemDataExtractor "extra")
             [transformers.find regex flags_IM 1; transformers.split sep]) item
  = Some (transformers.split sep
            (VStr (default [] (mjoin (head (gscan flags_IM (re.compile regex) None text 0)))))).
Proof.
  intros H. cbn [extract]. rewrite H. cbn [default mbind option_bind result_bind].
  unfold apply_transformers. cbn [foldl]. cbv [id]. cbv iota.
  change (Ok (VStr text) ≫= transformers.find regex flags_IM 1)
    with (transformers.find regex flags_IM 1 (VStr text)).
  by rewrite find_first.
Qed.

(** ** The first match of a pattern with the rest-of-line tail *)

Section first_match.
Context (cs : list re.cls) (L : str) (k : char) (L' : str).
Hypothesis Hcs : starts_with_letter cs.
Hypothesis Hrej : reject_LF flags_IM cs = true.
Hypothesis HL : ones flags_IM cs L = Some [].
Hypothesis HLk : L = k :: L'.
Hypothesis Hk : isspace k = false.
Hypothesis Hkc : (k =? colon) = false.

Context (ids post : str) (c : char) (ids' : str).
Hypothesis Hids : ids = c :: ids'.
Hypothesis Hc : isspace c = false.
Hypothesis HidsLF : Forall (λ y, y ≠ LF) ids.
Hypothesis Hpost : post = [] ∨ ∃ post', post = LF :: post'.

Local Abbreviation X := (labelled_line L ids post).
Local Abbreviation P := (rest_re cs).

Lemma body_line : body cs X = Some (ids ++ post).
Proof using All.
  unfold body, labelled_line. rewrite (ones_app _ _ _ _ _ HL). cbn [mbind option_bind app].
  change (u ": ") with [colon; 32]. cbn [app lstrip drop_while].
  change (isspace colon) with false. cbv iota. rewrite N.eqb_refl.
  unfold lstrip. cbn [drop_while]. change (isspace 32) with true. cbv iota.
  rewrite Hids. cbn [app drop_while]. by rewrite Hc.
Qed.

Lemma lstrip_X w : Forall (λ x, isspace x = true) w → lstrip (w ++ X) = X.
Proof using All.
  intros Hw. unfold lstrip. rewrite drop_while_app_nil by (by apply drop_while_nil_all).
  unfold labelled_line. rewrite HLk. cbn [app drop_while]. by rewrite Hk.
Qed.

Lemma line_rest : take_while notLF (ids ++ post) = ids ∧ drop_while notLF (ids ++ post) = post.
Proof using All.
  assert (Hstop : match post with [] => True | x :: _ => notLF x = false end)
    by (destruct Hpost as [->|[post' ->]]; done).
  assert (Hall : Forall (λ x, notLF x = true) ids).
  { eapply Forall_impl; [exact HidsLF|]. intros y Hy. unfold notLF.
    apply negb_true_iff. by apply N.eqb_neq. }
  split; [by apply take_while_app_stop|].
  rewrite drop_while_app_nil by (by apply drop_while_nil_all).
  by apply drop_while_stop.
Qed.

Lemma exec_at_line prev w :
  re.at_bol flags_IM prev = true → Forall (λ x, isspace x = true) w →
  re.exec flags_IM P prev (w ++ X) re.no_caps
  = Some (re.Caps (Some (ids ++ post)) (Some ids), post).
Proof using All.
  intros Hbol Hw. unfold rest_re. rewrite exec_rest, Hbol by done.
  unfold after_label. rewrite lstrip_X, body_line by done.
  cbn [fmap option_fmap option_map]. by destruct line_rest as [-> ->].
Qed.

(** Text before the line that holds no match of its own does not match
    with the line behind it either. *)
Lemma body_before Y :
  last Y = Some LF → body cs Y = None → body cs (Y ++ X) = None.
Proof using All.
  intros (Y0 & ->)%last_Some. rewrite <- app_assoc. cbn [app].
  unfold body. rewrite !ones_app_LF by done.
  destruct (ones flags_IM cs Y0) as [s'|]; [|done].
  cbn [fmap option_fmap option_map mbind option_bind]. unfold lstrip.
  destruct (drop_while isspace s') as [|d s3] eqn:E.
  - intros _. rewrite drop_while_app_nil by done. cbn [drop_while].
    change (isspace LF) with true. cbv iota.
    unfold labelled_line. rewrite HLk. cbn [app drop_while]. by rewrite Hk, Hkc.
  - rewrite !(drop_while_app_ne _ _ _ _ _ E). by destruct (d =? colon).
Qed.

Lemma first_match pre prev :
  gscan flags_IM P prev pre 0 = [] →
  (pre = [] → re.at_bol flags_IM prev = true) →
  (pre ≠ [] → last pre = Some LF) →
  ∃ p', gscan flags_IM P prev (pre ++ X) 0 = Some ids :: gscan flags_IM P p' post 0.
Proof using All.
  assert (Hmin : (1 ≤ min_len P)%nat).
  { apply min_len_head. destruct Hcs as (l & cs' & -> & _). simpl. lia. }
  assert (Hhit : ∀ prev w, re.at_bol flags_IM prev = true →
            Forall (λ x, isspace x = true) w →
            ∃ p', gscan flags_IM P prev (w ++ X) 0 = Some ids :: gscan flags_IM P p' post 0).
  { intros prev0 w Hb Hw.
    destruct (gscan_match _ _ _ _ _ _ (exec_at_line prev0 w Hb Hw) Hmin) as [p' Hp'].
    by exists p'. }
  revert prev. induction pre as [|x pre IH]; intros prev Hnone Hbol Hlast.
  { apply (Hhit prev []); [by apply Hbol|constructor]. }
  cbn [gscan] in Hnone.
  destruct (re.exec flags_IM P prev (x :: pre) re.no_caps) as [[cs0 r0]|] eqn:E; [done|].
  assert (Hlast' : last (x :: pre) = Some LF) by (by apply Hlast).
  clear Hlast.
  assert (Hnext : ∃ p', gscan flags_IM P (Some x) (pre ++ X) 0
                        = Some ids :: gscan flags_IM P p' post 0).
  { apply IH; [done| |].
    - intros ->. injection Hlast' as ->. done.
    - intros Hne. rewrite last_cons in Hlast'.
      destruct (last pre) eqn:El; [done|]. apply last_None in El. done. }
  destruct (re.at_bol flags_IM prev) eqn:Hb.
  - unfold rest_re in E. rewrite exec_rest, Hb in E by done.
    destruct (after_label cs (x :: pre)) as [s5|] eqn:E5; [done|].
    unfold after_label in E5.
    destruct (lstrip (x :: pre)) as [|y q] eqn:Hl.
    + apply (Hhit prev (x :: pre)); [done|]. by apply drop_while_nil_all.
    + change ((x :: pre) ++ X) with (x :: pre ++ X). rewrite gscan_miss; [done|].
      unfold rest_re. rewrite exec_rest, Hb by done. unfold after_label.
      change (x :: pre ++ X) with ((x :: pre) ++ X).
      unfold lstrip in *. rewrite (drop_while_app_ne _ _ _ _ _ Hl).
      change (y :: q ++ X) with ((y :: q) ++ X). rewrite body_before; [done| |done].
      rewrite <- (take_drop_while isspace (x :: pre)), Hl in Hlast'.
      rewrite last_app in Hlast'.
      destruct (last (y :: q)) eqn:El; [done|]. by apply last_None in El.
  - change ((x :: pre) ++ X) with (x :: pre ++ X). rewrite gscan_miss; [done|].
    unfold rest_re. by rewrite exec_rest, Hb.
Qed.
End first_match.

Lemma finditer_nil_gscan r text :
  re.finditer r flags_IM text = [] → gscan flags_IM r None text 0 = [].
Proof. unfold re.finditer. rewrite <- (scan_groups _ _ _ 0%nat). by intros ->. Qed.

Lemma KerkoCite_label_letter : starts_with_letter KerkoCite_label.
Proof. by eexists _, _. Qed.

Lemma EdTechHub_label_letter : starts_with_letter EdTechHub_label.
Proof. by eexists _, _. Qed.

(** The value of the first line that matches, for either label. *)
Lemma first_line_value regex sep cs L k L' item pre v post :
  re.compile regex = label_head cs ++ tail_rest →
  starts_with_letter cs → reject_LF flags_IM cs = true →
  ones flags_IM cs L = Some [] → L = k :: L' → isspace k = false →
  (k =? colon) = false →
  item_data item !! "extra" = Some (VStr (pre ++ (L ++ u ": ") ++ v ++ post)) →
  (pre = [] ∨ last pre = Some LF) →
  (post = [] ∨ ∃ post', post = LF :: post') →
  re.finditer (re.compile regex) flags_IM pre = [] →
  (∃ c v', v = c :: v' ∧ isspace c = false) →
  Forall (λ y, y ≠ LF) v →
  extract (TransformerExtractor (ItemDataExtractor "extra")
             [transformers.find regex flags_IM 1; transformers.split sep]) item
  = Some (transformers.split sep (VStr v)).
Proof.
  intros Hre Hcs Hrej HL HLk Hk Hkc Hextra Hpre Hpost Hnone (c & v' & Hv & Hc) HvLF.
  rewrite (extract_find_split _ _ _ _ Hextra). do 3 f_equal.
  apply finditer_nil_gscan in Hnone. rewrite Hre in *.
  destruct (first_match cs L k L' Hcs Hrej HL HLk Hk Hkc v post c v' Hv Hc HvLF Hpost
              pre None Hnone) as [p' Hp'].
  - done.
  - by destruct Hpre as [->|?].
  - unfold rest_re, labelled_line in Hp'. rewrite <- (app_assoc L). by rewrite Hp'.
Qed.






(** ** Lines *)

Lemma split_loop_nonempty sep s skip cur : split_loop sep s skip cur ≠ [].
Proof.
  revert skip cur. induction s as [|x s IH]; intros skip cur; simpl; [done|].
  destruct skip; [|apply IH]. by destruct (starts_with sep (x :: s)).
Qed.

Lemma str_join_cons sep l ls :
  str_join sep (l :: ls)
  = l ++ match ls with [] => [] | _ => sep ++ str_join sep ls end.
Proof. destruct ls; simpl; [by rewrite app_nil_r|done]. Qed.

Lemma split_loop_join s cur :
  str_join [LF] (split_loop [LF] s 0 cur) = rev cur ++ s.
Proof.
  revert cur. induction s as [|x s IH]; intros cur.
  - simpl. by rewrite app_nil_r.
  - cbn [split_loop starts_with]. destruct (LF =? x) eqn:E.
    + apply N.eqb_eq in E as <-. cbn [length pred]. rewrite str_join_cons.
      pose proof (split_loop_nonempty [LF] s 0 []) as Hne.
      destruct (split_loop [LF] s 0 []) as [|q l] eqn:E'; [done|].
      rewrite <- E', IH. done.
    + rewrite IH. simpl. by rewrite <- app_assoc.
Qed.

Lemma lines_join text : str_join [LF] (lines text) = text.
Proof. apply split_loop_join. Qed.

Lemma split_loop_noLF s cur :
  noLF cur → Forall noLF (split_loop [LF] s 0 cur).
Proof.
  revert cur. induction s as [|x s IH]; intros cur Hcur.
  - simpl. constructor; [|constructor]. by apply Forall_rev.
  - cbn [split_loop starts_with]. destruct (LF =? x) eqn:E.
    + constructor; [by apply Forall_rev|]. apply IH. constructor.
    + apply IH. constructor; [|done]. apply N.eqb_neq in E. congruence.
Qed.

Lemma lines_noLF text : Forall noLF (lines text).
Proof. apply split_loop_noLF. constructor. Qed.

(** ** What the trailing spaces of a match leave *)

Lemma trail_spaces w : Forall (λ x, isspace x = true) w → trail w = Some [].
Proof.
  induction 1 as [|x w Hx _ IH]; [done|]. cbn [trail]. by rewrite Hx, IH.
Qed.

(** Spaces of a line and then a word: no end of line to stop at. *)
Lemma trail_inline d R :
  noLF d → forallb isspace d = false → trail (d ++ R) = None.
Proof.
  induction 1 as [|x d Hx _ IH]; [done|]. cbn [forallb app trail].
  destruct (isspace x) eqn:E; [|done]. cbn [andb]. intros Hd.
  rewrite (IH Hd). by apply N.eqb_neq in Hx as ->.
Qed.

(** Spaces, a line feed, the leading spaces of a line and a word: the match
    stops before that line feed. *)
Lemma trail_last_LF w h z R :
  Forall (λ x, isspace x = true) w → Forall (λ x, isspace x = true) h → noLF h →
  isspace z = false →
  trail (w ++ LF :: h ++ z :: R) = Some (LF :: h ++ z :: R).
Proof.
  intros Hw Hh HhLF Hz.
  assert (Hnone : trail (h ++ z :: R) = None).
  { clear Hw. induction Hh as [|x h Hx _ IH]; cbn [app trail].
    - by rewrite Hz.
    - inversion_clear HhLF as [|?? Hne HLF]. rewrite Hx, (IH HLF).
      by apply N.eqb_neq in Hne as ->. }
  induction Hw as [|x w Hx _ IH]; cbn [app trail].
  - change (isspace LF) with true. cbv iota. by rewrite Hnone.
  - by rewrite Hx, IH.
Qed.

(** A predicate that a line end stops cuts a line the same way with or
    without the text behind it. *)
Lemma drop_while_line p a R :
  match R with [] => True | x :: _ => p x = false end →
  drop_while p (a ++ R) = drop_while p a ++ R.
Proof.
  intros HR. induction a as [|x a IH]; cbn [app drop_while].
  - by apply drop_while_stop.
  - by destruct (p x).
Qed.

Lemma take_while_line p a R :
  match R with [] => True | x :: _ => p x = false end →
  take_while p (a ++ R) = take_while p a.
Proof.
  intros HR. induction a as [|x a IH]; cbn [app take_while].
  - destruct R as [|y R]; [done|]. cbn [take_while]. by rewrite HR.
  - destruct (p x); [by rewrite IH|done].
Qed.

Lemma line_end_stops_nonspace R :
  line_end R → match R with [] => True | x :: _ => nonspace x = false end.
Proof. by intros [->|[J ->]]. Qed.

Lemma noLF_drop_while p l : noLF l → noLF (drop_while p l).
Proof.
  unfold noLF. rewrite <- (take_drop_while p l) at 1. rewrite Forall_app. tauto.
Qed.

Lemma noLF_take_while p l : noLF l → noLF (take_while p l).
Proof.
  unfold noLF. rewrite <- (take_drop_while p l) at 1. rewrite Forall_app. tauto.
Qed.

Lemma noLF_ones cs s s' : ones flags_IM cs s = Some s' → noLF s → noLF s'.
Proof.
  intros (a & -> & _)%ones_suffix. unfold noLF. rewrite Forall_app. tauto.
Qed.

Lemma ones_line cs a R :
  reject_LF flags_IM cs = true → line_end R →
  ones flags_IM cs (a ++ R) = (λ s', s' ++ R) <$> ones flags_IM cs a.
Proof.
  intros Hcs [->|[J ->]]; [|by apply ones_app_LF].
  rewrite app_nil_r. destruct (ones flags_IM cs a); simpl; [by rewrite app_nil_r|done].
Qed.

Lemma shortDOI_label_letter : starts_with_letter shortDOI_label.
Proof. by eexists _, _. Qed.

(** ** A line of the text against the pattern *)

Section line.
Context (l R : str).
Hypothesis Hl : noLF l.
Hypothesis HR : line_end R.

(** A line that is neither of the form nor a dangling label gives no
    match. *)
Lemma line_miss :
  dangling_label "shortDOI" l = false → shortDOI_line l = None →
  tok_body (lstrip l ++ R) = None.
Proof using All.
  unfold dangling_label, shortDOI_line, tok_body, body, label.
  change (re.CLit <$> u "shortDOI") with shortDOI_label.
  rewrite ones_line by done.
  destruct (ones flags_IM shortDOI_label (lstrip l)) as [s2|] eqn:E2; [|done].
  cbn [fmap option_fmap option_map mbind option_bind].
  assert (H2 : noLF s2) by (eapply noLF_ones; [done|by apply noLF_drop_while]).
  unfold lstrip in *.
  destruct (drop_while isspace s2) as [|x s4] eqn:E4; [done|].
  rewrite (drop_while_app_ne _ _ _ _ _ E4).
  destruct (x =? colon) eqn:Ex; [|done]. cbn [andb].
  assert (H4 : noLF s4).
  { apply (noLF_drop_while isspace) in H2. rewrite E4 in H2. by inversion H2. }
  intros Hd. destruct (drop_while isspace s4) as [|z v] eqn:Ev.
  { apply drop_while_nil_all, forallb_Forall in Ev. congruence. }
  rewrite (drop_while_app_ne _ _ _ _ _ Ev). cbn [mbind option_bind].
  change (z :: v ++ R) with ((z :: v) ++ R).
  rewrite take_while_line, drop_while_line by (by apply line_end_stops_nonspace).
  destruct (take_while nonspace (z :: v)) as [|t0 t]; [done|].
  destruct (forallb isspace (drop_while nonspace (z :: v))) eqn:Ed; [done|].
  intros _. rewrite trail_inline; [done| |done].
  apply noLF_drop_while. apply (noLF_drop_while isspace) in H4. by rewrite Ev in H4.
Qed.

(** A line of the form gives its token; the match then runs through the
    spaces behind the token. *)
Lemma line_hit t :
  shortDOI_line l = Some t →
  ∃ s5 d, Forall (λ x, isspace x = true) d
          ∧ tok_body (lstrip l ++ R)
            = (λ r, (re.Caps (Some s5) (Some t), r)) <$> trail (d ++ R).
Proof using All.
  unfold shortDOI_line, tok_body, body, label.
  change (re.CLit <$> u "shortDOI") with shortDOI_label.
  rewrite ones_line by done.
  destruct (ones flags_IM shortDOI_label (lstrip l)) as [s2|] eqn:E2; [|done].
  cbn [fmap option_fmap option_map mbind option_bind].
  unfold lstrip in *.
  destruct (drop_while isspace s2) as [|x s4] eqn:E4; [done|].
  rewrite (drop_while_app_ne _ _ _ _ _ E4).
  destruct (x =? colon) eqn:Ex; [|done].
  destruct (drop_while isspace s4) as [|z v] eqn:Ev; [done|].
  rewrite (drop_while_app_ne _ _ _ _ _ Ev). cbn [mbind option_bind].
  change (z :: v ++ R) with ((z :: v) ++ R).
  rewrite take_while_line, drop_while_line by (by apply line_end_stops_nonspace).
  destruct (take_while nonspace (z :: v)) as [|t0 t']; [done|].
  destruct (forallb isspace (drop_while nonspace (z :: v))) eqn:Ed; [|done].
  intros [= <-]. eexists _, _. split; [|done]. by apply forallb_Forall.
Qed.
End line.

Lemma blank_line_none l : blank l = true → shortDOI_line l = None.
Proof.
intros H%forallb_Forall%drop_while_nil_all.
unfold shortDOI_line, lstrip. by rewrite H.
Qed.

Lemma exec_shortDOI p s :
  re.exec flags_IM shortDOI_re p s re.no_caps
  = if re.at_bol flags_IM p then tok_body (lstrip s) else None.
Proof. unfold shortDOI_re. rewrite exec_token by apply shortDOI_label_letter. done. Qed.

Lemma min_len_shortDOI : (1 ≤ min_len shortDOI_re)%nat.
Proof. vm_compute. lia. Qed.

Lemma lastp_cons prev x a : lastp prev (x :: a) = lastp (Some x) a.
Proof. unfold lastp. rewrite last_cons. by destruct (last a). Qed.

Lemma lstrip_spaces_app w Y :
  Forall (λ x, isspace x = true) w → lstrip (w ++ Y) = lstrip Y.
Proof. intros Hw. apply drop_while_app_nil. by apply drop_while_nil_all. Qed.

Lemma lstrip_word y q : isspace y = false → lstrip (y :: q) = y :: q.
Proof. intros Hy. unfold lstrip. cbn [drop_while]. by rewrite Hy. Qed.

Lemma gscan_blank b prev :
  Forall (λ x, isspace x = true) b → gscan flags_IM shortDOI_re prev b 0 = [].
Proof.
  intros Hb. revert prev. induction Hb as [|x b Hx Hb IH]; intros prev.
  - apply gscan_end, min_len_shortDOI.
  - rewrite gscan_miss; [apply IH|]. rewrite exec_shortDOI.
    replace (lstrip (x :: b)) with (@nil char).
    + by destruct (re.at_bol flags_IM prev).
    + symmetry. apply drop_while_nil_all. by constructor.
Qed.

(** Leading spaces before a word that starts no match are passed. *)
Lemma gscan_spaces_miss w prev y q :
  Forall (λ x, isspace x = true) w → isspace y = false → tok_body (y :: q) = None →
  gscan flags_IM shortDOI_re prev (w ++ y :: q) 0
  = gscan flags_IM shortDOI_re (lastp prev w) (y :: q) 0.
Proof.
  intros Hw Hy Hnone. revert prev. induction Hw as [|x w Hx Hw IH]; intros prev; [done|].
  cbn [app]. rewrite gscan_miss.
  - by rewrite IH, lastp_cons.
  - rewrite exec_shortDOI. change (x :: w ++ y :: q) with ((x :: w) ++ y :: q).
    rewrite lstrip_spaces_app by (by constructor). rewrite lstrip_word, Hnone by done.
    by destruct (re.at_bol flags_IM prev).
Qed.

(** A word that starts no match is passed up to the end of its line. *)
Lemma gscan_word_miss prev y q R :
  isspace y = false → noLF (y :: q) → tok_body (y :: q ++ R) = None →
  ∃ z, z ≠ LF ∧ gscan flags_IM shortDOI_re prev (y :: q ++ R) 0
                = gscan flags_IM shortDOI_re (Some z) R 0.
Proof.
  intros Hy HLF Hnone. rewrite gscan_miss; cycle 1.
  { rewrite exec_shortDOI, lstrip_word, Hnone by done.
    by destruct (re.at_bol flags_IM prev). }
  inversion_clear HLF as [|?? Hy' Hq]. clear Hnone Hy. revert y Hy'.
  induction Hq as [|x q Hx Hq IH]; intros y Hy'.
  - by exists y.
  - cbn [app]. rewrite gscan_miss; [by apply IH|].
    rewrite exec_shortDOI. cbn [re.at_bol flags_IM re.MULTILINE andb].
    by apply N.eqb_neq in Hy' as ->.
Qed.

(** From a line start, through spaces, to a word that starts a match. *)
Lemma gscan_spaces_hit b h prev y q cs0 rest :
  Forall (λ x, isspace x = true) b → Forall (λ x, isspace x = true) h →
  (b = [] → re.at_bol flags_IM prev = true) → (b ≠ [] → last b = Some LF) →
  isspace y = false → tok_body (y :: q) = Some (cs0, rest) →
  ∃ p', gscan flags_IM shortDOI_re prev (b ++ h ++ y :: q) 0
        = re.group1 cs0 :: gscan flags_IM shortDOI_re p' rest 0.
Proof.
  intros Hb Hh Hbol Hlast Hy Htok.
  assert (Hhit : ∀ prev w, re.at_bol flags_IM prev = true →
            Forall (λ x, isspace x = true) w →
            ∃ p', gscan flags_IM shortDOI_re prev (w ++ y :: q) 0
                  = re.group1 cs0 :: gscan flags_IM shortDOI_re p' rest 0).
  { intros prev0 w Hb0 Hw. apply gscan_match; [|apply min_len_shortDOI].
    by rewrite exec_shortDOI, Hb0, lstrip_spaces_app, lstrip_word. }
  revert prev Hbol Hlast. induction Hb as [|x b Hx Hb IH]; intros prev Hbol Hlast.
  { apply (Hhit prev h); [by apply Hbol|done]. }
  assert (Hlast' : last (x :: b) = Some LF) by (by apply Hlast). clear Hlast.
  destruct (re.at_bol flags_IM prev) eqn:Hp.
  - rewrite app_assoc. apply Hhit; [done|]. apply Forall_app. split; [by constructor|done].
  - cbn [app]. rewrite gscan_miss; [|by rewrite exec_shortDOI, Hp].
    apply IH.
    + intros ->. injection Hlast' as ->. done.
    + intros Hne. rewrite last_cons in Hlast'.
      destruct (last b) eqn:El; [done|]. by apply last_None in El.
Qed.

(** Behind a match, the blank lines are passed and the scan resumes at the
    line feed before the next line that is not blank. *)
Lemma trail_lines ls w :
  Forall noLF ls → Forall (λ x, isspace x = true) w →
  (trail (w ++ LF :: str_join [LF] ls) = Some [] ∧ Forall (λ l, blank l = true) ls)
  ∨ ∃ bl l ls', ls = bl ++ l :: ls' ∧ Forall (λ l, blank l = true) bl
                ∧ trail (w ++ LF :: str_join [LF] ls)
                  = Some (LF :: str_join [LF] (l :: ls')).
Proof.
  intros Hls. revert w. induction Hls as [|l ls Hl Hls IH]; intros w Hw.
  { left. split; [|constructor]. apply trail_spaces.
    apply Forall_app. split; [done|]. by constructor. }
  rewrite str_join_cons. destruct (blank l) eqn:Hb.
  - assert (Hsp : Forall (λ x, isspace x = true) l) by (by apply forallb_Forall).
    destruct ls as [|l1 ls1].
    + left. split; [|by repeat constructor]. apply trail_spaces.
      rewrite app_nil_r. apply Forall_app. split; [done|]. by constructor.
    + destruct (IH (w ++ LF :: l)) as [[Ht Hbl]|(bl & l2 & ls2 & Heq & Hbl & Ht)].
      { apply Forall_app. split; [done|]. by constructor. }
      * left. split; [|by constructor]. rewrite <- app_assoc in Ht. exact Ht.
      * right. exists (l :: bl), l2, ls2. split; [by rewrite Heq|].
        split; [by constructor|]. rewrite <- app_assoc in Ht. exact Ht.
  - right. exists [], l, ls. split; [done|]. split; [constructor|].
    rewrite str_join_cons.
    set (R1 := match ls with [] => [] | _ => [LF] ++ str_join [LF] ls end).
    destruct (drop_while isspace l) as [|z v] eqn:Ev.
    { apply drop_while_nil_all, forallb_Forall in Ev. unfold blank in Hb. congruence. }
    rewrite <- (take_drop_while isspace l), Ev, <- !app_assoc. cbn [app].
    apply trail_last_LF; [done|apply take_while_all|by apply noLF_take_while|].
    by apply drop_while_head in Ev.
Qed.

Lemma omap_blank bl :
  Forall (λ l, blank l = true) bl → omap shortDOI_line bl = [].
Proof.
  induction 1 as [|l bl Hl _ IH]; [done|]. cbn [omap list_omap].
  by rewrite (blank_line_none l Hl).
Qed.

Lemma line_end_rest (ls : list str) :
  line_end (match ls with [] => [] | _ => [LF] ++ str_join [LF] ls end).
Proof. destruct ls; [by left|right; by eexists]. Qed.

(** The scan of a text, line by line: [b] is what the scan has passed of
    blank lines since the last line start. *)
Lemma gscan_lines n ls b prev :
  (length ls ≤ n)%nat → Forall good_line ls →
  Forall (λ x, isspace x = true) b →
  (b = [] → re.at_bol flags_IM prev = true) → (b ≠ [] → last b = Some LF) →
  gscan flags_IM shortDOI_re prev (b ++ str_join [LF] ls) 0
  = Some <$> omap shortDOI_line ls.
Proof.
  revert ls b prev. induction n as [|n IH]; intros ls b prev Hn Hls Hb Hbol Hlast.
  { destruct ls; [|simpl in Hn; lia]. cbn [str_join]. rewrite app_nil_r.
    by apply gscan_blank. }
  destruct ls as [|l ls].
  { cbn [str_join]. rewrite app_nil_r. by apply gscan_blank. }
  simpl in Hn. inversion_clear Hls as [|?? [Hl Hd] Hls'].
  assert (Hls'' : Forall noLF ls).
  { eapply Forall_impl; [exact Hls'|]. by intros ? [? _]. }
  assert (Hafter : ∀ z, ls ≠ [] →
            gscan flags_IM shortDOI_re z ([LF] ++ str_join [LF] ls) 0
            = Some <$> omap shortDOI_line ls).
  { intros z _. apply IH; [lia|done|by repeat constructor|done|done]. }
  rewrite str_join_cons.
  pose proof (line_end_rest ls) as HR.
  set (R1 := match ls with [] => [] | _ => [LF] ++ str_join [LF] ls end) in *.
  destruct (blank l) eqn:Hbl.
  { (* a blank line *)
    assert (Hsp : Forall (λ x, isspace x = true) l) by (by apply forallb_Forall).
    cbn [omap list_omap]. rewrite (blank_line_none l Hbl).
    destruct ls as [|l1 ls1].
    - subst R1. rewrite app_nil_r. apply gscan_blank. by apply Forall_app.
    - subst R1. rewrite !app_assoc. apply IH; [lia|done| | |].
      + apply Forall_app. split; [by apply Forall_app|by repeat constructor].
      + by destruct b, l.
      + intros _. by rewrite last_snoc. }
  (* a line with a word *)
  destruct (drop_while isspace l) as [|y q] eqn:Ev.
  { apply drop_while_nil_all, forallb_Forall in Ev. unfold blank in Hbl. congruence. }
  assert (Hy : isspace y = false) by (by apply drop_while_head in Ev).
  assert (Hh : Forall (λ x, isspace x = true) (take_while isspace l))
    by apply take_while_all.
  assert (Hyq : noLF (y :: q)).
  { rewrite <- Ev. by apply noLF_drop_while. }
  assert (Htext : b ++ l ++ R1 = b ++ take_while isspace l ++ (y :: q ++ R1)).
  { rewrite <- (take_drop_while isspace l) at 1. by rewrite Ev, <- app_assoc. }
  rewrite Htext. cbn [omap list_omap].
  destruct (shortDOI_line l) as [t|] eqn:Hline.
  - (* of the form: its token, then on behind the spaces that follow *)
    destruct (line_hit l R1 Hl HR t Hline) as (s5 & d & Hdsp & Htok).
    unfold lstrip in Htok. rewrite Ev in Htok.
    assert (Hrest : ∃ rest,
              trail (d ++ R1) = Some rest
              ∧ ∀ p', gscan flags_IM shortDOI_re p' rest 0 = Some <$> omap shortDOI_line ls).
    { destruct ls as [|l1 ls1].
      - subst R1. exists []. rewrite app_nil_r. split; [by apply trail_spaces|].
        intros p'. apply gscan_end, min_len_shortDOI.
      - subst R1. cbn [app].
        destruct (trail_lines (l1 :: ls1) d Hls'' Hdsp)
          as [[Ht Hall]|(bl & l2 & ls2 & Heq & Hall & Ht)].
        + exists []. split; [done|]. intros p'. rewrite (omap_blank _ Hall).
          apply gscan_end, min_len_shortDOI.
        + exists (LF :: str_join [LF] (l2 :: ls2)). split; [done|]. intros p'.
          rewrite Heq, omap_app, (omap_blank _ Hall). cbn [app].
          apply (IH (l2 :: ls2) [LF] p').
          * rewrite Heq, length_app in Hn. simpl in Hn. simpl. lia.
          * rewrite Heq in Hls'. by apply Forall_app in Hls' as [_ ?].
          * by repeat constructor.
          * done.
          * done. }
    destruct Hrest as (rest & Htrail & Hgo). rewrite Htrail in Htok.
    cbn [fmap option_fmap option_map] in Htok.
    destruct (gscan_spaces_hit b (take_while isspace l) prev y (q ++ R1) _ rest
                Hb Hh Hbol Hlast Hy Htok) as [p' ->].
    cbn [re.group1 fmap list_fmap]. f_equal. apply Hgo.
  - (* not of the form: nothing of this line *)
    pose proof (line_miss l R1 Hl HR Hd Hline) as Htok.
    unfold lstrip in Htok. rewrite Ev in Htok.
    rewrite app_assoc, gscan_spaces_miss; [|by apply Forall_app|done|done].
    destruct (gscan_word_miss (lastp prev (b ++ take_while isspace l)) y q R1 Hy Hyq Htok)
      as (z & Hz & ->).
    destruct ls as [|l1 ls1].
    + subst R1. apply gscan_end, min_len_shortDOI.
    + subst R1. by apply Hafter.
Qed.

Lemma find_all regex text :
  transformers.find regex flags_IM 0 (VStr text)
  = Ok (VList (default [] <$> gscan flags_IM (re.compile regex) None text 0)).
Proof.
  unfold transformers.find, re.finditer. do 2 f_equal.
  rewrite <- (scan_groups _ _ _ 0%nat), <- list_fmap_compose. done.
Qed.

(** C4 (amended): provided no line of the 'Extra' text is a dangling label
    (the word shortDOI, alone or with its colon, and nothing else on the
    line), the shortDOI extractor returns exactly the tokens of the lines of
    the form [shortDOI: <t>], one per line, in the order of the text and
    without a limit; the other lines contribute nothing. *)
Theorem C4_shortDOI_tokens_line_by_line item text :
  item_data item !! "extra" = Some (VStr text) →
  (∀ l, l ∈ lines text → dangling_label "shortDOI" l = false) →
  extract shortDOI_extractor item
  = Some (Ok (VList (omap shortDOI_line (lines text)))).
Proof.
  intros Hextra Hgood. unfold shortDOI_extractor. cbn [extract]. rewrite Hextra.
  cbn [default mbind option_bind result_bind]. cbv [id]. cbv iota.
  unfold apply_transformers. cbn [foldl].
  change (Ok (VStr text) ≫= ?f) with (f (VStr text)).
  rewrite find_all, compile_shortDOI. do 3 f_equal.
  change (label_head shortDOI_label ++ tail_token) with shortDOI_re.
  rewrite <- (lines_join text) at 1.
  change (str_join [LF] (lines text)) with ([] ++ str_join [LF] (lines text)).
  rewrite (gscan_lines (length (lines text)) (lines text) [] None); [| | |done|done|done].
  - rewrite <- list_fmap_compose. apply list_fmap_id.
  - lia.
  - apply Forall_forall. intros l Hl. split; [|by apply Hgood].
    by apply (proj1 (Forall_forall _ _) (lines_noLF text)).
Qed.

Lemma C4_witness :
  extract shortDOI_extractor (extra_item sample_extra)
  = Some (Ok (VList [u "10/abc"; u "10/xyz"])).
Proof.
  apply (C4_shortDOI_tokens_line_by_line (extra_item sample_extra) sample_extra).
  - vm_compute. reflexivity.
  - intros l Hl.
    assert (E : lines sample_extra
                = [u "shortDOI: 10/abc"; []; u "A note"; u "  ShortDOI : 10/xyz  ";
                   u "shortDOI: two words"]) by (vm_compute; reflexivity).
    rewrite E in Hl.
    repeat (apply elem_of_cons in Hl as [->|Hl]); try (vm_compute; reflexivity).
    by apply elem_of_nil in Hl.
Defined.

(** C4 as stated fails: a label on a line of its own takes its token from
    the next line, which is not of the form. *)
Lemma C4_dangling_label_counterexample :
  ¬ (∀ item text,
       item_data item !! "extra" = Some (VStr text) →
       extract shortDOI_extractor item
       = Some (Ok (VList (omap shortDOI_line (lines text))))).
Proof.
  intros H.
  specialize (H (extra_item (u "shortDOI:" ++ [LF] ++ u "abc"))
                (u "shortDOI:" ++ [LF] ++ u "abc")).
  assert (E : extract shortDOI_extractor (extra_item (u "shortDOI:" ++ [LF] ++ u "abc"))
              = Some (Ok (VList [u "abc"]))) by (vm_compute; reflexivity).
  rewrite H in E; [|vm_compute; reflexivity].
  vm_compute in E. discriminate E.
Qed.

(** ** Further properties of the class body *)

Lemma dict_set_set {A} (d : dict A) k v v' :
  dict_set (dict_set d k v) k v' = dict_set d k v'.
Proof.
  induction d as [|[k' w] d IH]; simpl.
  - by rewrite bool_decide_eq_true_2.
  - case_bool_decide as Hk; simpl.
    + by rewrite bool_decide_eq_true_2.
    + rewrite bool_decide_eq_false_2 by done. by rewrite IH.
Qed.

Lemma fields_foldl_other fs c k :
  (∀ f, f ∈ fs → field_key f ≠ k) →
  dict_get (fields (foldl add_field c fs)) k = dict_get (fields c) k.
Proof.
  revert c. induction fs as [|g fs IH]; intros c H; [done|].
  simpl. rewrite IH by (intros f Hf; apply H; by right).
  simpl. apply dict_get_set_ne. apply H. by left.
Qed.

Lemma fields_foldl_get fs c f :
  NoDup (field_key <$> fs) → f ∈ fs →
  dict_get (fields (foldl add_field c fs)) (field_key f) = Some f.
Proof.
  revert c. induction fs as [|g fs IH]; intros c Hnd Hin; [by apply elem_of_nil in Hin|].
  simpl in *. apply NoDup_cons in Hnd as [Hg Hnd].
  apply elem_of_cons in Hin as [->|Hin]; [|by apply IH].
  rewrite fields_foldl_other; [apply dict_get_set_eq|].
  intros f Hf Heq. apply Hg. rewrite <- Heq. by apply list_elem_of_fmap_2.
Qed.

Lemma fields_foldl_inv fs c k f :
  dict_get (fields (foldl add_field c fs)) k = Some f →
  (f ∈ fs ∧ field_key f = k) ∨ dict_get (fields c) k = Some f.
Proof.
  revert c. induction fs as [|g fs IH]; intros c H; [by right|].
  simpl in H. apply IH in H as [[Hin Hk]|H].
  - left. split; [by right|done].
  - simpl in H. rewrite dict_get_set in H. case_bool_decide as Hk.
    + injection H as <-. left. split; [by left|done].
    + by right.
Qed.

Lemma excluded_false l k : excluded l k = false ↔ k ∉ l.
Proof. unfold excluded. by rewrite bool_decide_eq_false. Qed.

(** The default field of a key is a default of Kerko with that key, and
    the key is not 'data', which the module excludes. *)
Lemma default_field_elem lib k f :
  default_field lib k = Some f →
  f ∈ default_fields lib ∧ field_key f = k ∧ k ≠ "data".
Proof.
  unfold default_field, fresh_composer, Composer_init.
  rewrite fields_foldl_add_badge, fields_foldl_add_sort, fields_foldl_add_facet.
  intros [[Hin Hk]|H]%fields_foldl_inv; [|done].
  apply list_elem_of_filter in Hin as [Hex Hin]. apply excluded_false in Hex.
  split; [done|]. split; [done|]. subst k. intros Heq. apply Hex.
  apply elem_of_cons. by left.
Qed.

Lemma default_field_get lib f :
  NoDup (field_key <$> default_fields lib) →
  f ∈ default_fields lib → field_key f ≠ "data" →
  default_field lib (field_key f) = Some f.
Proof.
  intros Hnd Hin Hne. unfold default_field, fresh_composer, Composer_init.
  rewrite fields_foldl_add_badge, fields_foldl_add_sort, fields_foldl_add_facet.
  apply fields_foldl_get.
  - eapply sublist_NoDup; [exact Hnd|]. apply fmap_sublist, sublist_filter.
  - apply list_elem_of_filter. split; [|done]. apply excluded_false.
    intros [Heq|Hn]%elem_of_cons; [congruence|by apply elem_of_nil in Hn].
Qed.

Lemma fields_foldl_keep fs c k :
  is_Some (dict_get (fields c) k) →
  is_Some (dict_get (fields (foldl add_field c fs)) k).
Proof.
  revert c. induction fs as [|g fs IH]; intros c H; [done|].
  simpl. apply IH. simpl. rewrite dict_get_set. by case_bool_decide.
Qed.

Lemma fields_foldl_some fs c f :
  f ∈ fs → is_Some (dict_get (fields (foldl add_field c fs)) (field_key f)).
Proof.
  revert c. induction fs as [|g fs IH]; intros c Hin; [by apply elem_of_nil in Hin|].
  simpl. apply elem_of_cons in Hin as [->|Hin]; [|by apply IH].
  apply fields_foldl_keep. simpl. by rewrite dict_get_set_eq.
Qed.

(** A key has no default field when it is 'data' or when no default of
    Kerko has it. *)
Lemma default_field_none lib k :
  default_field lib k = None
  ↔ k = "data" ∨ ∀ f, f ∈ default_fields lib → field_key f ≠ k.
Proof.
  unfold default_field, fresh_composer, Composer_init.
  rewrite fields_foldl_add_badge, fields_foldl_add_sort, fields_foldl_add_facet.
  split.
  - intros H. destruct (decide (k = "data")) as [|Hne]; [by left|]. right.
    intros f Hin Hk.
    assert (Hin' : f ∈ filter (λ f, excluded ["data"] (field_key f) = false)
                         (default_fields lib)).
    { apply list_elem_of_filter. split; [|done]. apply excluded_false. rewrite Hk.
      intros [Heq|Hn]%elem_of_cons; [congruence|by apply elem_of_nil in Hn]. }
    eapply fields_foldl_some in Hin'. rewrite Hk in Hin'. rewrite H in Hin'.
    by destruct Hin'.
  - intros H. destruct (dict_get _ _) as [f|] eqn:Hf; [|done].
    apply fields_foldl_inv in Hf as [[Hin Hk]|Hf]; [|done].
    apply list_elem_of_filter in Hin as [Hex Hin]. apply excluded_false in Hex.
    destruct H as [->|H]; [|by apply H in Hin].
    exfalso. apply Hex. rewrite Hk. apply elem_of_cons. by left.
Qed.

Lemma append_one c key e f es :
  dict_get (fields c) key = Some f →
  field_extractor f = MultiExtractor es →
  append_extractor c key e
  = Ok (MkComposer (whoosh_language c) (exclude_default_facets c)
          (exclude_default_fields c) (default_child_include_re c)
          (default_child_exclude_re c)
          (dict_set (fields c) key
             (MkFieldSpec (field_key f) (field_type f)
                (MultiExtractor (es ++ [e])) (field_codec f)))
          (facets c) (sorts c) (badges c)).
Proof.
  intros Hf He. unfold append_extractor, dict_item. rewrite Hf. simpl. by rewrite He.
Qed.

Lemma append_none c key e :
  dict_get (fields c) key = None → append_extractor c key e = Raise (KeyError key).
Proof. intros Hf. unfold append_extractor, dict_item. by rewrite Hf. Qed.

Lemma append_other c key e f :
  dict_get (fields c) key = Some f →
  (∀ es, field_extractor f ≠ MultiExtractor es) →
  append_extractor c key e = Raise (AttributeError "extractors").
Proof.
  intros Hf He. unfold append_extractor, dict_item. rewrite Hf. simpl.
  destruct (field_extractor f); try done. by destruct (He extractors).
Qed.

Lemma sorts_foldl_add_facet fs c : sorts (foldl add_facet c fs) = sorts c.
Proof. revert c. induction fs as [|f fs IH]; intros c; [done|]. simpl. by rewrite IH. Qed.

Lemma badges_foldl_add_facet fs c : badges (foldl add_facet c fs) = badges c.
Proof. revert c. induction fs as [|f fs IH]; intros c; [done|]. simpl. by rewrite IH. Qed.

Lemma facets_foldl_eq fs c c' :
  facets c = facets c' → facets (foldl add_facet c fs) = facets (foldl add_facet c' fs).
Proof.
  revert c c'. induction fs as [|g fs IH]; intros c c' H; [done|].
  simpl. apply IH. simpl. by rewrite H.
Qed.

(** The composer part of the class body, by cases on the default fields it
    looks up. *)
Lemma Config_composer_cases lib :
  match default_field lib "alternateId" with
  | None => Config_composer lib = Raise (KeyError "alternateId")
  | Some f =>
    match field_extractor f with
    | MultiExtractor es =>
      match default_field lib "sort_date", default_field lib "sort_creator",
            default_field lib "sort_title" with
      | Some f2, Some f3, Some f4 =>
        ∃ c, Config_composer lib = Ok c
             ∧ fields c =
                 dict_set (dict_set
                   (dict_set
                      (dict_set (dict_set (fields (fresh_composer lib)) "data" (data_field lib))
                         "preview" preview_field)
                      "alternateId"
                      (MkFieldSpec (field_key f) (field_type f)
                         (MultiExtractor (es ++ alternateId_appended)) (field_codec f)))
                   "edtechhub" edtechhub_field) "_boost" boost_field
             ∧ facets c = facets (foldl add_facet (fresh_composer lib) Config_facets)
             ∧ sorts c = dict_set (sorts (fresh_composer lib)) "hub_desc"
                           (hub_desc_sort edtechhub_field f2 f3 f4)
             ∧ badges c = dict_set (badges (fresh_composer lib)) "edtechhub"
                            (edtechhub_badge edtechhub_field)
      | None, _, _ => Config_composer lib = Raise (KeyError "sort_date")
      | Some _, None, _ => Config_composer lib = Raise (KeyError "sort_creator")
      | Some _, Some _, None => Config_composer lib = Raise (KeyError "sort_title")
      end
    | _ => Config_composer lib = Raise (AttributeError "extractors")
    end
  end.
Proof.
  unfold Config_composer, default_field. fold (fresh_composer lib).
  generalize Config_facets. intros FS.
  set (ci := add_field (add_field (fresh_composer lib) _) _).
  assert (Hci : ∀ k, k ≠ "data" → k ≠ "preview" →
            dict_get (fields ci) k = dict_get (fields (fresh_composer lib)) k).
  { intros k H1 H2. subst ci. simpl. by rewrite !dict_get_set_ne. }
  rewrite <- !Hci by done.
  assert (Hfi : fields ci
                = dict_set (dict_set (fields (fresh_composer lib)) "data" (data_field lib))
                    "preview" preview_field) by reflexivity.
  assert (Hfa : facets ci = facets (fresh_composer lib)) by reflexivity.
  assert (Hso : sorts ci = sorts (fresh_composer lib)) by reflexivity.
  assert (Hba : badges ci = badges (fresh_composer lib)) by reflexivity.
  rewrite <- Hfi, <- Hso, <- Hba. clearbody ci.
  destruct (dict_get (fields ci) "alternateId") as [f|] eqn:Hf.
  2:{ by rewrite (append_none _ _ _ Hf). }
  destruct (field_extractor f) as [| | | | | |es|] eqn:He;
    try (rewrite (append_other _ _ _ _ Hf) by (by rewrite He); reflexivity).
  rewrite (append_one _ _ _ _ _ Hf He). simpl.
  erewrite append_one; [|simpl; apply dict_get_set_eq|reflexivity]. simpl.
  erewrite append_one; [|simpl; apply dict_get_set_eq|reflexivity]. simpl.
  rewrite !dict_set_set, <- !app_assoc. simpl app.
  fold alternateId_appended. unfold dict_item. simpl.
  rewrite !dict_get_set_eq. simpl.
  rewrite (dict_get_set_ne _ "_boost" "edtechhub") by done.
  rewrite dict_get_set_eq. simpl.
  rewrite !(dict_get_set_ne _ "_boost") by done.
  rewrite !(dict_get_set_ne _ "edtechhub") by done.
  rewrite !fields_foldl_add_facet. simpl.
  rewrite !(dict_get_set_ne _ "alternateId") by done.
  destruct (dict_get (fields ci) "sort_date") as [f2|]; [|reflexivity].
  destruct (dict_get (fields ci) "sort_creator") as [f3|]; [|reflexivity].
  destruct (dict_get (fields ci) "sort_title") as [f4|]; [|reflexivity].
  simpl. eexists. split; [reflexivity|]. simpl. rewrite fields_foldl_add_facet. simpl.
  split; [reflexivity|]. split; [by apply facets_foldl_eq|].
  by rewrite sorts_foldl_add_facet, badges_foldl_add_facet.
Qed.

Lemma has_default_field lib k :
  k ≠ "data" → (is_Some (default_field lib k) ↔ has_default lib k).
Proof.
  intros Hne. split.
  - intros [f Hf]. apply default_field_elem in Hf as (? & ? & _). by exists f.
  - intros (f & Hin & Hk). destruct (default_field lib k) eqn:Hd; [done|].
    apply default_field_none in Hd as [->|Hd]; [done|]. by apply Hd in Hin.
Qed.

(** What a successful run of the composer part found and built. *)
Lemma Config_composer_ok lib c :
  Config_composer lib = Ok c →
  ∃ f es,
    default_field lib "alternateId" = Some f
    ∧ field_extractor f = MultiExtractor es
    ∧ (∀ k, k ∈ sort_field_keys → is_Some (default_field lib k))
    ∧ fields c =
        dict_set (dict_set
          (dict_set
             (dict_set (dict_set (fields (fresh_composer lib)) "data" (data_field lib))
                "preview" preview_field)
             "alternateId"
             (MkFieldSpec (field_key f) (field_type f)
                (MultiExtractor (es ++ alternateId_appended)) (field_codec f)))
          "edtechhub" edtechhub_field) "_boost" boost_field
    ∧ facets c = facets (foldl add_facet (fresh_composer lib) Config_facets)
    ∧ (∃ f2 f3 f4, sorts c = dict_set (sorts (fresh_composer lib)) "hub_desc"
                               (hub_desc_sort edtechhub_field f2 f3 f4))
    ∧ badges c = dict_set (badges (fresh_composer lib)) "edtechhub"
                   (edtechhub_badge edtechhub_field).
Proof.
  intros Hc. pose proof (Config_composer_cases lib) as H. rewrite Hc in H.
  destruct (default_field lib "alternateId") as [f|] eqn:H1; [|done].
  destruct (field_extractor f) as [| | | | | |es|] eqn:He; try done.
  destruct (default_field lib "sort_date") as [f2|] eqn:H2; [|done].
  destruct (default_field lib "sort_creator") as [f3|] eqn:H3; [|done].
  destruct (default_field lib "sort_title") as [f4|] eqn:H4; [|done].
  destruct H as (c' & [= <-] & Hf & Hfa & Hso & Hba). exists f, es.
  split; [done|]. split; [done|]. split.
  { intros k Hk. unfold sort_field_keys in Hk.
    repeat (apply elem_of_cons in Hk as [->|Hk]); eauto. by apply elem_of_nil in Hk. }
  split; [done|]. split; [done|]. split; [by exists f2, f3, f4|done].
Qed.





(** X3: after a load the 'alternateId' field holds the extractors of the
    default field followed by the EdTechHub, the KerkoCite and the shortDOI
    extractor, in the order of the three appends; its key, type and codec
    are those of the default field. *)
Theorem alternateId_extractors_appended lib w cfg f es :
  NoDup (field_key <$> default_fields lib) →
  f ∈ default_fields lib → field_key f = "alternateId" →
  field_extractor f = MultiExtractor es →
  load lib w = Ok cfg →
  dict_get (fields (KERKO_COMPOSER cfg)) "alternateId"
  = Some (MkFieldSpec "alternateId" (field_type f)
            (MultiExtractor (es ++ alternateId_appended)) (field_codec f)).
Proof.
  intros Hnd Hin Hk He Hload.
  destruct (load_inv _ _ _ Hload) as (? & ? & ? & ? & ? & c & _ & _ & _ & _ & _ & Hc & -> & _).
  destruct (Config_composer_ok _ _ Hc) as (f' & es' & Hf & He' & _ & -> & _).
  pose proof (default_field_get lib f Hnd Hin) as Hf'. rewrite Hk in Hf'.
  rewrite Hf' in Hf by done. injection Hf as <-. rewrite He in He'. injection He' as <-.
  rewrite !dict_get_set_ne by done. rewrite dict_get_set_eq. by rewrite Hk.
Qed.

Lemma alternateId_extractors_appended_witness :
  ∃ cfg, load sample_lib sample_world = Ok cfg
    ∧ dict_get (fields (KERKO_COMPOSER cfg)) "alternateId"
      = Some (MkFieldSpec "alternateId" (Some STORED)
                (MultiExtractor ([LibraryExtractor "DOI"; LibraryExtractor "ISBN"]
                                 ++ alternateId_appended)) BaseFieldCodec).
Proof.
  destruct sample_load as [cfg Hcfg]. exists cfg. split; [done|].
  apply (alternateId_extractors_appended sample_lib sample_world cfg
           (MkFieldSpec "alternateId" (Some STORED)
              (MultiExtractor [LibraryExtractor "DOI"; LibraryExtractor "ISBN"])
              BaseFieldCodec)); [|  |reflexivity|reflexivity|done].
  - apply (bool_decide_unpack _). vm_compute. exact I.
  - apply elem_of_cons. right. apply elem_of_cons. by left.
Defined.



Lemma facets_foldl_add_sort fs c : facets (foldl add_sort c fs) = facets c.
Proof. revert c. induction fs as [|f fs IH]; intros c; [done|]. simpl. by rewrite IH. Qed.

Lemma facets_foldl_add_badge fs c : facets (foldl add_badge c fs) = facets c.
Proof. revert c. induction fs as [|f fs IH]; intros c; [done|]. simpl. by rewrite IH. Qed.

Lemma facets_foldl_is_Some fs c k :
  is_Some (dict_get (facets (foldl add_facet c fs)) k)
  ↔ k ∈ (facet_key <$> fs) ∨ is_Some (dict_get (facets c) k).
Proof.
  revert c. induction fs as [|g fs IH]; intros c; simpl.
  - split; [by right|]. intros [H|H]; [by apply elem_of_nil in H|done].
  - rewrite IH. simpl. rewrite dict_get_set, elem_of_cons.
    case_bool_decide as Hk; [subst k|]; split; try tauto; eauto.
    intros [[H|H]|H]; try tauto. congruence.
Qed.

Lemma fields_facets_init c fs k :
  facets c = [] →
  (is_Some (dict_get (facets (foldl add_field c fs)) k) ↔ False).
Proof.
  intros H. replace (facets (foldl add_field c fs)) with (facets c).
  - rewrite H. simpl. split; [by intros [? ?]|done].
  - clear H. revert c. induction fs as [|g fs IH]; intros c; [done|]. simpl. by rewrite <- IH.
Qed.

(** X5: the facets of the composer.  None of the three excluded default
    facets is registered, and a key holds a facet exactly when it is one of
    the twelve keys of the module or the key of a default facet that is not
    excluded. *)
Theorem facet_keys_of_the_composer lib w cfg :
  load lib w = Ok cfg →
  let c := KERKO_COMPOSER cfg in
  (∀ k, k ∈ excluded_facets → dict_get (facets c) k = None)
  ∧ (∀ k, is_Some (dict_get (facets c) k)
          ↔ k ∈ (facet_key <$> Config_facets)
            ∨ ((k ∉ excluded_facets) ∧ ∃ f, f ∈ default_facets lib ∧ facet_key f = k)).
Proof.
  intros Hload c. subst c.
  destruct (load_inv _ _ _ Hload) as (? & ? & ? & ? & ? & c & _ & _ & _ & _ & _ & Hc & -> & _).
  destruct (Config_composer_ok _ _ Hc) as (f & es & _ & _ & _ & _ & -> & _).
  assert (Hkeys : ∀ k, is_Some (dict_get (facets (foldl add_facet (fresh_composer lib)
                                                    Config_facets)) k)
          ↔ k ∈ (facet_key <$> Config_facets)
            ∨ ((k ∉ excluded_facets) ∧ ∃ f, f ∈ default_facets lib ∧ facet_key f = k)).
  { intros k. rewrite facets_foldl_is_Some. unfold fresh_composer, Composer_init.
    rewrite facets_foldl_add_badge, facets_foldl_add_sort, facets_foldl_is_Some.
    rewrite fields_facets_init by done.
    split; (intros [H|H]; [by left|right]).
    - destruct H as [H|H]; [|by destruct H].
      apply list_elem_of_fmap in H as (g & -> & Hg).
      apply list_elem_of_filter in Hg as [Hex Hg]. apply excluded_false in Hex.
      split; [done|]. by exists g.
    - destruct H as (Hex & g & Hg & <-). left. apply list_elem_of_fmap.
      exists g. split; [done|].
      apply list_elem_of_filter. split; [|done]. by apply excluded_false. }
  split; [|done]. intros k Hk.
  destruct (dict_get _ k) eqn:Hd; [|done]. exfalso.
  destruct (proj1 (Hkeys k)) as [H|[H _]]; [by rewrite Hd| |done].
  unfold excluded_facets in Hk.
  repeat (apply elem_of_cons in Hk as [->|Hk]); [| | |by apply elem_of_nil in Hk];
    revert H; apply (bool_decide_unpack _); vm_compute; exact I.
Qed.

Lemma facet_keys_of_the_composer_witness :
  ∃ cfg, load sample_lib sample_world = Ok cfg
    ∧ dict_get (facets (KERKO_COMPOSER cfg)) "facet_tag" = None.
Proof.
  destruct sample_load as [cfg Hcfg]. exists cfg. split; [done|].
  apply (facet_keys_of_the_composer sample_lib sample_world cfg Hcfg). in_list.
Defined.



Lemma Path_root s :
  pathlib.root (pathlib.Path s) = []
  ∨ pathlib.root (pathlib.Path s) = [pathlib.sep]
  ∨ pathlib.root (pathlib.Path s) = [pathlib.sep; pathlib.sep].
Proof.
  unfold pathlib.Path. simpl.
  destruct (pathlib.leading_seps s) as [|[|[|n]]]; auto.
Qed.

Lemma Path_root_slash s :
  pathlib.root (pathlib.Path (pathlib.sep :: s)) ≠ [].
Proof.
  unfold pathlib.Path. simpl.
  destruct (pathlib.leading_seps s) as [|[|n]]; done.
Qed.

Lemma absolute_root cwd p :
  pathlib.root (pathlib.absolute cwd p) = pathlib.root p
  ∨ pathlib.root (pathlib.absolute cwd p) = pathlib.root (pathlib.Path cwd).
Proof. unfold pathlib.absolute. destruct (pathlib.is_absolute p); auto. Qed.

Lemma is_absolute_root p :
  pathlib.is_absolute p = true ↔ pathlib.root p ≠ [].
Proof.
  unfold pathlib.is_absolute, str_eqb. rewrite negb_true_iff, bool_decide_eq_false. done.
Qed.

Lemma absolute_is_absolute cwd p :
  pathlib.is_absolute (pathlib.absolute (pathlib.sep :: cwd) p) = true.
Proof.
  unfold pathlib.absolute. destruct (pathlib.is_absolute p) eqn:Hp; [done|].
  apply is_absolute_root. simpl. apply Path_root_slash.
Qed.

(** X7: when the working directory starts with a slash, [app_dir] is an
    absolute path, and the default of [KERKO_DATA_DIR] starts with a slash
    and ends in [/data/kerko]. *)
Theorem data_dir_default_is_absolute lib w cfg d :
  cwd w = pathlib.sep :: d →
  load lib w = Ok cfg →
  pathlib.is_absolute (app_dir cfg) = true
  ∧ (read_env w !! "KERKO_DATA_DIR" = None →
     head (KERKO_DATA_DIR cfg) = Some pathlib.sep
     ∧ ∃ dir, KERKO_DATA_DIR cfg = dir ++ u "/data/kerko").
Proof.
  intros Hcwd Hload.
  destruct (load_inv _ _ _ Hload) as (fa & ? & ? & ? & ? & c & _ & _ & _ & _ & _ & _ & _ & Ha & Hd).
  assert (Habs : pathlib.is_absolute (app_dir cfg) = true).
  { rewrite Ha, Hcwd. apply absolute_is_absolute. }
  split; [done|]. intros Hnone. rewrite Hd, Hnone. simpl. rewrite data_dir_default_str.
  apply is_absolute_root in Habs.
  assert (Hroot : pathlib.root (app_dir cfg) = [pathlib.sep]
                  ∨ pathlib.root (app_dir cfg) = [pathlib.sep; pathlib.sep]).
  { rewrite Ha in Habs |- *.
    destruct (absolute_root (cwd w) (pathlib.parent (pathlib.Path fa))) as [Hr|Hr];
      rewrite Hr in Habs |- *.
    - simpl in *. destruct (Path_root fa) as [?|[?|?]]; auto. done.
    - destruct (Path_root (cwd w)) as [?|[?|?]]; auto. done. }
  destruct (app_dir cfg) as [r ps]. simpl in *.
  destruct ps as [|p ps].
  - destruct Hroot as [-> | ->]; simpl.
    + split; [done|]. by exists [].
    + split; [done|]. by exists [pathlib.sep].
  - rewrite to_str_parts by done. split.
    + by destruct Hroot as [-> | ->].
    + exists (r ++ str_join [pathlib.sep] (p :: ps)). by rewrite <- !app_assoc.
Qed.

Lemma data_dir_default_is_absolute_witness :
  ∃ cfg, load sample_lib sample_world = Ok cfg
    ∧ pathlib.is_absolute (app_dir cfg) = true.
Proof.
  destruct sample_load as [cfg Hcfg]. exists cfg. split; [done|].
  by apply (data_dir_default_is_absolute sample_lib sample_world cfg (u "srv/app")).
Defined.

Lemma prefix_cases (pat s : str) :
  (∃ v, s = pat ++ v) ∨ (∀ v, s ≠ pat ++ v).
Proof.
  destruct (starts_with pat s) as [r|] eqn:H.
  - left. exists r. by apply starts_with_Some.
  - right. intros v Hv. apply starts_with_Some in Hv. congruence.
Qed.

Lemma suffix_cases (pat s : str) :
  (∃ v, s = v ++ pat) ∨ (∀ v, s ≠ v ++ pat).
Proof.
  destruct (prefix_cases (rev pat) (rev s)) as [[v Hv]|H].
  - left. exists (rev v). apply (f_equal (@rev char)) in Hv.
    by rewrite rev_involutive, rev_app_distr, rev_involutive in Hv.
  - right. intros v Hv. apply (H (rev v)). by rewrite Hv, rev_app_distr.
Qed.

Lemma span_open_chars : span_open = [60; 115; 112; 97; 110; 62].
Proof. reflexivity. Qed.

Lemma span_close_chars : span_close = [60; 47; 115; 112; 97; 110; 62].
Proof. reflexivity. Qed.

Lemma div_close_chars : u "</div>" = [60; 47; 100; 105; 118; 62].
Proof. reflexivity. Qed.

Lemma csl_entry_div_head : ∃ t, csl_entry_div = 60 :: 100 :: t.
Proof. eexists. reflexivity. Qed.

(** The first transformer of 'preview' on a string, and what it never
    leaves at the start. *)
Lemma preview_open_cases s :
  ∃ t, preview_open (VStr s) = Ok (VStr t)
       ∧ ((∃ v, s = span_open ++ v ∧ t = csl_entry_div ++ v)
          ∨ ((∀ v, s ≠ span_open ++ v) ∧ t = s)).
Proof.
  unfold preview_open. eexists. split; [reflexivity|].
  destruct (prefix_cases span_open s) as [[v ->]|H].
  - left. exists v. split; [done|]. apply sub_open_match.
  - right. split; [done|]. by apply sub_open_miss.
Qed.

Lemma preview_open_no_span s t :
  preview_open (VStr s) = Ok (VStr t) → ∀ v, t ≠ span_open ++ v.
Proof.
  intros H. destruct (preview_open_cases s) as (t' & Ht & Hc).
  rewrite H in Ht. injection Ht as <-.
  destruct Hc as [(v & -> & ->)|[Hs ->]]; [|done].
  intros v'. destruct csl_entry_div_head as [d ->]. rewrite span_open_chars.
  simpl. discriminate.
Qed.

Lemma preview_close_cases s :
  ∃ t, preview_close (VStr s) = Ok (VStr t)
       ∧ ((∃ v, s = v ++ span_close ∧ t = v ++ u "</div>")
          ∨ (∃ v, s = v ++ span_close ++ [LF] ∧ t = v ++ u "</div>" ++ [LF])
          ∨ ((∀ v, s ≠ v ++ span_close) ∧ (∀ v, s ≠ v ++ span_close ++ [LF]) ∧ t = s)).
Proof.
  unfold preview_close. eexists. split; [reflexivity|].
  destruct (suffix_cases span_close s) as [[v ->]|H1].
  - left. exists v. split; [done|]. rewrite sub_close_match by (by left).
    by rewrite app_nil_r.
  - destruct (suffix_cases (span_close ++ [LF]) s) as [[v ->]|H2].
    + right. left. exists v. split; [done|]. by rewrite sub_close_match by (by right).
    + right. right. split; [done|]. split; [done|]. by apply sub_close_miss.
Qed.

Lemma no_span_tail (v a b : str) :
  (∀ w, v ++ a ≠ span_open ++ w) → (∃ b', b = 60 :: 47 :: b') →
  ∀ w, v ++ b ≠ span_open ++ w.
Proof.
  intros H [b' ->] w. rewrite span_open_chars in *.
  destruct v as [|a1 [|a2 [|a3 [|a4 [|a5 [|a6 v]]]]]]; simpl; try discriminate.
  intros [= -> -> -> -> -> -> _]. by apply (H (v ++ a)).
Qed.

Lemma apply_two (a b : Transformer) v : apply_transformers [a; b] v = a v ≫= b.
Proof. reflexivity. Qed.

(** X8: for every citation the two transformers of 'preview' succeed, and
    their result neither starts with the opening span tag nor ends with the
    closing one, be it followed by a final line feed or not; running the
    two transformers on the result again changes nothing. *)
Theorem preview_never_leaves_the_span s :
  ∃ t, apply_transformers [preview_open; preview_close] (VStr s) = Ok (VStr t)
       ∧ (∀ v, t ≠ span_open ++ v)
       ∧ (∀ v, t ≠ v ++ span_close)
       ∧ (∀ v, t ≠ v ++ span_close ++ [LF])
       ∧ apply_transformers [preview_open; preview_close] (VStr t) = Ok (VStr t).
Proof.
  destruct (preview_open_cases s) as (t1 & Ho & _).
  pose proof (preview_open_no_span _ _ Ho) as Hn1.
  destruct (preview_close_cases t1) as (t & Hc & Hcases).
  exists t. rewrite apply_two, Ho. split; [exact Hc|].
  assert (N1 : ∀ v, t ≠ span_open ++ v).
  { destruct Hcases as [(v & -> & ->)|[(v & -> & ->)|(_ & _ & ->)]]; [| |done].
    - eapply no_span_tail; [exact Hn1|]. eexists. reflexivity.
    - eapply no_span_tail; [exact Hn1|]. eexists. reflexivity. }
  assert (N2 : ∀ v, t ≠ v ++ span_close).
  { destruct Hcases as [(v & -> & ->)|[(v & -> & ->)|(? & _ & ->)]]; [| |done];
      intros v' Hv; apply (f_equal (@rev char)) in Hv;
      rewrite !rev_app_distr, ?div_close_chars, ?span_close_chars in Hv;
      simpl in Hv; discriminate. }
  assert (N3 : ∀ v, t ≠ v ++ span_close ++ [LF]).
  { destruct Hcases as [(v & -> & ->)|[(v & -> & ->)|(_ & ? & ->)]]; [| |done];
      intros v' Hv; apply (f_equal (@rev char)) in Hv;
      rewrite !rev_app_distr, ?div_close_chars, ?span_close_chars in Hv;
      simpl in Hv; discriminate. }
  split; [done|]. split; [done|]. split; [done|].
  rewrite apply_two. unfold preview_open, preview_close. simpl.
  rewrite (sub_open_miss t N1). by rewrite (sub_close_miss t N2 N3).
Qed.

(** *** Splitting and joining *)

Lemma split_loop_skip sep (a rest : str) cur :
  split_loop sep (a ++ rest) (length a) cur = split_loop sep rest 0 cur.
Proof.
  induction a as [|x a IH]; [by destruct rest|]. simpl. exact IH.
Qed.

Lemma split_loop_join_any sep s cur :
  sep ≠ [] → str_join sep (split_loop sep s 0 cur) = rev cur ++ s.
Proof.
  intros Hsep. remember (length s) as n eqn:Hn.
  assert (Hle : (length s ≤ n)%nat) by lia. clear Hn.
  revert s cur Hle. induction n as [|n IH]; intros s cur Hle.
  { destruct s; [|simpl in Hle; lia]. simpl. by rewrite app_nil_r. }
  destruct s as [|x s]; [simpl; by rewrite app_nil_r|].
  cbn [split_loop]. destruct (starts_with sep (x :: s)) as [r|] eqn:Hst.
  - apply starts_with_Some in Hst. destruct sep as [|c sep']; [done|].
    injection Hst as -> ->. cbn [length pred]. rewrite split_loop_skip.
    rewrite str_join_cons.
    pose proof (split_loop_nonempty (c :: sep') r 0 []) as Hne.
    destruct (split_loop (c :: sep') r 0 []) as [|q l] eqn:E; [done|].
    rewrite <- E, IH.
    + done.
    + simpl in Hle. rewrite length_app in Hle. lia.
  - rewrite IH by (simpl in Hle; lia). simpl. by rewrite <- app_assoc.
Qed.

(** [sep.join(value.split(sep))] is [value]. *)
Lemma str_split_join sep s l : str_split sep s = Some l → str_join sep l = s.
Proof.
  unfold str_split. destruct sep as [|c sep'] eqn:E; [done|].
  intros [= <-]. by rewrite split_loop_join_any.
Qed.

Lemma split_loop_Forall (P : char → Prop) sep s skip cur :
  Forall P s → Forall P cur → Forall (Forall P) (split_loop sep s skip cur).
Proof.
  intros Hs. revert skip cur. induction Hs as [|x s Hx Hs IH]; intros skip cur Hcur.
  - simpl. apply Forall_singleton. by apply Forall_rev.
  - cbn [split_loop]. destruct skip as [|k]; [|by apply IH].
    destruct (starts_with sep (x :: s)).
    + apply Forall_cons. split; [by apply Forall_rev|]. by apply IH.
    + apply IH. by apply Forall_cons.
Qed.

(** With a separator of one character, no piece holds the separator. *)
Lemma split_loop_no_sep c s cur :
  Forall (λ x, x ≠ c) cur →
  Forall (Forall (λ x, x ≠ c)) (split_loop [c] s 0 cur).
Proof.
  revert cur. induction s as [|x s IH]; intros cur Hcur.
  - simpl. apply Forall_singleton. by apply Forall_rev.
  - cbn [split_loop starts_with]. destruct (c =? x) eqn:E.
    + cbn [length pred]. apply Forall_cons. split; [by apply Forall_rev|]. by apply IH.
    + apply IH. apply Forall_cons. split; [|done]. apply N.eqb_neq in E. congruence.
Qed.

(** *** Every capture of a scan *)

Lemma gscan_Forall fl r (I : str → Prop) (Q : option str → Prop) :
  (∀ x s, I (x :: s) → I s) →
  (∀ prev s cs rest, I s → re.exec fl r prev s re.no_caps = Some (cs, rest) →
     Q (re.group1 cs)) →
  ∀ s prev skip, I s → Forall Q (gscan fl r prev s skip).
Proof.
  intros Htl Hex s. induction s as [|x s IH]; intros prev skip HI.
  - simpl. destruct skip; [|done].
    destruct (re.exec fl r prev [] re.no_caps) as [[cs rest]|] eqn:E; [|done].
    apply Forall_singleton. by eapply Hex.
  - cbn [gscan]. destruct skip as [|k].
    + destruct (re.exec fl r prev (x :: s) re.no_caps) as [[cs rest]|] eqn:E.
      * apply Forall_cons. split; [by eapply Hex|]. apply IH. by eapply Htl.
      * apply IH. by eapply Htl.
    + apply IH. by eapply Htl.
Qed.

Lemma finditer_gscan r text :
  re.m_group1 <$> re.finditer r flags_IM text = gscan flags_IM r None text 0.
Proof. unfold re.finditer. apply scan_groups. Qed.

(** *** The token pattern *)

Lemma tok_body_token Y cs rest :
  tok_body Y = Some (cs, rest) → ∃ t, re.group1 cs = Some t ∧ token t.
Proof.
  unfold tok_body. destruct (body shortDOI_label Y) as [s5|]; [|done]. simpl.
  pose proof (take_while_all nonspace s5) as Hall.
  destruct (take_while nonspace s5) as [|y t] eqn:E; [done|].
  destruct (trail _); [|done]. intros [= <- _]. exists (y :: t). split; [done|].
  split; [done|]. eapply Forall_impl; [exact Hall|]. intros x Hx. simpl in Hx.
  unfold nonspace in Hx. by apply negb_true_iff in Hx.
Qed.

Lemma drop_while_suffix p (s : str) x : x ∈ drop_while p s → x ∈ s.
Proof. intros H. rewrite <- (take_drop_while p s). apply elem_of_app. by right. Qed.

Lemma body_colon cs Y s5 : body cs Y = Some s5 → colon ∈ Y.
Proof.
  unfold body. destruct (ones flags_IM cs Y) as [s2|] eqn:Ho; [|done]. simpl.
  destruct (lstrip s2) as [|x s4] eqn:El; [done|].
  destruct (x =? colon) eqn:Ex; [|done]. intros _. apply N.eqb_eq in Ex as ->.
  apply ones_suffix in Ho as (a & -> & _). apply elem_of_app. right.
  apply (drop_while_suffix isspace). unfold lstrip in El. rewrite El. by left.
Qed.

Lemma extract_find_all regex item text :
  item_data item !! "extra" = Some (VStr text) →
  extract (TransformerExtractor (ItemDataExtractor "extra")
             [transformers.find regex flags_IM 0]) item
  = Some (Ok (VList (default [] <$> gscan flags_IM (re.compile regex) None text 0))).
Proof.
  intros H. cbn [extract]. rewrite H.
  cbn [default mbind option_bind result_bind]. cbv [id]. cbv iota.
  unfold apply_transformers. cbn [foldl].
  change (Ok (VStr text) ≫= ?f) with (f (VStr text)).
  by rewrite find_all.
Qed.

(** X9: for every 'Extra' text the shortDOI extractor returns a list of
    tokens, each of them non-empty and without whitespace; a text without a
    colon gives the empty list. *)
Theorem shortDOI_tokens_are_well_formed item text :
  item_data item !! "extra" = Some (VStr text) →
  ∃ ts, extract shortDOI_extractor item = Some (Ok (VList ts))
        ∧ Forall token ts
        ∧ (colon ∉ text → ts = []).
Proof.
  intros Hextra. eexists. split; [by apply extract_find_all|].
  rewrite compile_shortDOI. fold shortDOI_re. split.
  - apply Forall_fmap.
    apply (gscan_Forall _ _ (λ _, True)); [done| |done].
    intros prev s cs rest _. rewrite exec_shortDOI.
    destruct (re.at_bol flags_IM prev); [|done].
    intros (t & -> & Ht)%tok_body_token. exact Ht.
  - intros Hno.
    assert (H : Forall (λ _, False)
                  (gscan flags_IM shortDOI_re None text 0)).
    { apply (gscan_Forall _ _ (λ s, colon ∉ s)); [| |done].
      - intros x s Hs Hin. apply Hs. by right.
      - intros prev s cs rest Hs. rewrite exec_shortDOI.
        destruct (re.at_bol flags_IM prev); [|done].
        unfold tok_body. destruct (body shortDOI_label (lstrip s)) as [s5|] eqn:Hb; [|done].
        apply body_colon in Hb. apply (drop_while_suffix isspace) in Hb. done. }
    destruct (gscan flags_IM shortDOI_re None text 0) as [|g l]; [done|].
    by apply Forall_cons in H as [[] _].
Qed.

Lemma shortDOI_tokens_are_well_formed_witness :
  ∃ ts, extract shortDOI_extractor (extra_item sample_extra) = Some (Ok (VList ts))
        ∧ Forall token ts ∧ (colon ∉ sample_extra → ts = []).
Proof. by apply (shortDOI_tokens_are_well_formed (extra_item sample_extra) sample_extra). Defined.

(** *** The rest-of-line patterns *)

Lemma rest_capture cs prev s caps rest :
  starts_with_letter cs →
  re.exec flags_IM (rest_re cs) prev s re.no_caps = Some (caps, rest) →
  ∃ v, re.group1 caps = Some v ∧ noLF v.
Proof.
  intros Hcs. unfold rest_re. rewrite exec_rest by done.
  destruct (re.at_bol flags_IM prev); [|done].
  destruct (after_label cs s) as [s5|]; [|done]. simpl. intros [= <- _].
  eexists. split; [reflexivity|].
  eapply Forall_impl; [apply (take_while_all notLF)|]. intros x Hx. simpl in Hx.
  unfold notLF in Hx. apply negb_true_iff in Hx. by apply N.eqb_neq in Hx.
Qed.

(** [find] with the first match, then [split] at a separator of one
    character: the pieces of the capture. *)
Lemma find_split_pieces regex sep c cs item text m ms :
  re.compile regex = rest_re cs → starts_with_letter cs → u sep = [c] →
  item_data item !! "extra" = Some (VStr text) →
  re.finditer (re.compile regex) flags_IM text = m :: ms →
  ∃ v pieces,
    re.m_group1 m = Some v
    ∧ extract (TransformerExtractor (ItemDataExtractor "extra")
                 [transformers.find regex flags_IM 1; transformers.split sep]) item
      = Some (Ok (VList pieces))
    ∧ pieces ≠ []
    ∧ str_join [c] pieces = v
    ∧ Forall (Forall (λ x, x ≠ c ∧ x ≠ LF)) pieces.
Proof.
  intros Hre Hcs Hsep Hextra Hfind.
  pose proof (finditer_gscan (re.compile regex) text) as Hg. rewrite Hfind in Hg.
  simpl in Hg.
  assert (Hall : Forall (λ g, ∃ v, g = Some v ∧ noLF v)
                   (gscan flags_IM (re.compile regex) None text 0)).
  { rewrite Hre. apply (gscan_Forall _ _ (λ _, True)); [done| |done].
    intros prev s caps rest _ He. by apply (rest_capture cs prev s caps rest). }
  rewrite <- Hg in Hall. apply Forall_cons in Hall as [(v & Hv & HLF) _].
  exists v, (split_loop [c] v 0 []). split; [done|].
  rewrite (extract_find_split _ _ _ _ Hextra), <- Hg. simpl. rewrite Hv. simpl.
  unfold transformers.split, str_split. rewrite Hsep.
  split; [done|]. split; [apply split_loop_nonempty|].
  split; [by apply split_loop_join_any|].
  pose proof (split_loop_no_sep c v [] (Forall_nil_2 _)) as H1.
  pose proof (split_loop_Forall (λ x, x ≠ LF) [c] v 0 [] HLF (Forall_nil_2 _)) as H2.
  revert H1 H2. generalize (split_loop [c] v 0 []). intros l H1.
  induction H1 as [|p l Hp Hl IH]; intros H2; [constructor|].
  apply Forall_cons in H2 as [Hp2 Hl2]. constructor; [|by apply IH].
  clear -Hp Hp2. induction Hp as [|x p Hx Hp IH]; [constructor|].
  apply Forall_cons in Hp2 as [Hx2 Hp2]. constructor; [done|by apply IH].
Qed.



(** Every attribute of a [Config] that loaded. *)
Lemma load_inv_all lib w cfg :
  load lib w = Ok cfg →
  ∃ fa sk ak li lt c,
    read_env w !! "FLASK_APP" = Some fa
    ∧ read_env w !! "SECRET_KEY" = Some sk
    ∧ read_env w !! "KERKO_ZOTERO_API_KEY" = Some ak
    ∧ read_env w !! "KERKO_ZOTERO_LIBRARY_ID" = Some li
    ∧ read_env w !! "KERKO_ZOTERO_LIBRARY_TYPE" = Some lt
    ∧ Config_composer lib = Ok c
    ∧ let dir := pathlib.absolute (cwd w) (pathlib.parent (pathlib.Path fa)) in
      cfg = MkConfig dir sk ak li lt
              (default (pathlib.to_str (dir // "data" // "kerko"))
                 (read_env w !! "KERKO_DATA_DIR"))
              [pathlib.to_str (package_parent w // "static" // "src" // "vendor"
                                 // "bootstrap" // "scss");
               pathlib.to_str (package_parent w // "static" // "src" // "vendor"
                                 // "@fortawesome" // "fontawesome-free" // "scss")]
              Config_constants c.
Proof.
  unfold load, env_str. intros H.
  destruct (read_env w !! "FLASK_APP") as [fa|]; simpl in H; [|done].
  destruct (read_env w !! "SECRET_KEY") as [sk|]; simpl in H; [|done].
  destruct (read_env w !! "KERKO_ZOTERO_API_KEY") as [ak|]; simpl in H; [|done].
  destruct (read_env w !! "KERKO_ZOTERO_LIBRARY_ID") as [li|]; simpl in H; [|done].
  destruct (read_env w !! "KERKO_ZOTERO_LIBRARY_TYPE") as [lt|]; simpl in H; [|done].
  exists fa, sk, ak, li, lt.
  destruct (read_env w !! "KERKO_DATA_DIR") as [dd|]; simpl in H;
    (destruct (Config_composer lib) as [c|]; simpl in H; [|done]);
    injection H as <-; exists c; simpl; done.
Qed.

Lemma read_env_lookup w n :
  read_env w !! n
  = match environ w !! n with
    | Some v => Some v
    | None => file ← dotenv w; file !! n
    end.
Proof.
  unfold read_env. destruct (dotenv w) as [file|]; simpl.
  - rewrite lookup_union. by destruct (environ w !! n), (file !! n).
  - by destruct (environ w !! n).
Qed.

(** X11: the four settings read without a default, and [KERKO_DATA_DIR],
    hold the value of their variable unchanged: the value of the process
    environment when it sets the variable, and the value of the [.env] file
    only when it does not. *)
Theorem settings_hold_the_variables lib w cfg n v :
  load lib w = Ok cfg →
  n ∈ ["SECRET_KEY"; "KERKO_ZOTERO_API_KEY"; "KERKO_ZOTERO_LIBRARY_ID";
       "KERKO_ZOTERO_LIBRARY_TYPE"; "KERKO_DATA_DIR"] →
  (environ w !! n = Some v → env_setting cfg n = Some v)
  ∧ (environ w !! n = None → ∀ file, dotenv w = Some file → file !! n = Some v →
     env_setting cfg n = Some v).
Proof.
  intros Hload Hn.
  assert (Hread : read_env w !! n = Some v → env_setting cfg n = Some v).
  { destruct (load_inv_all _ _ _ Hload)
      as (fa & sk & ak & li & lt & c & _ & H2 & H3 & H4 & H5 & _ & ->).
    cbv zeta. unfold env_setting. simpl.
    repeat (apply elem_of_cons in Hn as [->|Hn]); [| | | | |by apply elem_of_nil in Hn];
      simpl; intros Hv; rewrite Hv in *; simpl; congruence. }
  split.
  - intros He. apply Hread. rewrite read_env_lookup. by rewrite He.
  - intros He file Hf Hv. apply Hread. rewrite read_env_lookup. rewrite He, Hf. done.
Qed.

Lemma settings_hold_the_variables_witness :
  ∃ cfg, load sample_lib shadowed_world = Ok cfg
    ∧ env_setting cfg "SECRET_KEY" = Some (u "s3cret")
    ∧ env_setting cfg "KERKO_DATA_DIR" = Some (u "var/kerko").
Proof.
  assert (H : ∃ cfg, load sample_lib shadowed_world = Ok cfg).
  { apply load_succeeds; [vm_compute; reflexivity|].
    intros n Hn. unfold required_variables in Hn. simpl in Hn.
    repeat (apply elem_of_cons in Hn as [->|Hn]); try (vm_compute; eauto; fail).
    by apply elem_of_nil in Hn. }
  destruct H as [cfg Hcfg]. exists cfg. split; [done|]. split.
  - apply (settings_hold_the_variables sample_lib shadowed_world cfg "SECRET_KEY"
             (u "s3cret") Hcfg); [in_list|]. vm_compute. reflexivity.
  - eapply (proj2 (settings_hold_the_variables sample_lib shadowed_world cfg
                     "KERKO_DATA_DIR" (u "var/kerko") Hcfg ltac:(in_list)));
      [vm_compute; reflexivity|reflexivity|vm_compute; reflexivity].
Defined.

Lemma str_join_app sep (ps qs : list str) :
  qs ≠ [] →
  str_join sep (ps ++ qs)
  = match ps with [] => [] | _ => str_join sep ps ++ sep end ++ str_join sep qs.
Proof.
  intros Hq. induction ps as [|p ps IH]; [done|].
  rewrite <- app_comm_cons, !str_join_cons, IH.
  destruct ps as [|p' ps]; simpl.
  - destruct qs; [done|]. by rewrite app_nil_r, <- app_assoc.
  - by rewrite <- !app_assoc.
Qed.

Lemma to_str_join p (qs : list str) :
  qs ≠ [] →
  pathlib.to_str (pathlib.MkPath (pathlib.root p) (pathlib.parts p ++ qs))
  = dir_prefix p ++ str_join [pathlib.sep] qs.
Proof.
  intros Hq. destruct p as [r ps]. unfold dir_prefix. simpl.
  rewrite to_str_parts by (destruct ps, qs; done).
  rewrite str_join_app by done. destruct ps as [|p ps]; [done|].
  rewrite to_str_parts by done. by rewrite <- !app_assoc.
Qed.

(** X12: the two Sass include paths are the directory two levels above
    the module followed by the fixed segments of the source; they depend on
    [__file__] alone, not on the environment, the working directory or
    Kerko. *)
Theorem libsass_includes_follow_the_module lib w cfg :
  load lib w = Ok cfg →
  LIBSASS_INCLUDES cfg
  = [dir_prefix (package_parent w) ++ u "static/src/vendor/bootstrap/scss";
     dir_prefix (package_parent w)
       ++ u "static/src/vendor/@fortawesome/fontawesome-free/scss"]
  ∧ ∀ lib' w' cfg', load lib' w' = Ok cfg' → module_file w' = module_file w →
      LIBSASS_INCLUDES cfg' = LIBSASS_INCLUDES cfg.
Proof.
  assert (Hform : ∀ lib w cfg, load lib w = Ok cfg →
            LIBSASS_INCLUDES cfg
            = [dir_prefix (package_parent w) ++ u "static/src/vendor/bootstrap/scss";
               dir_prefix (package_parent w)
                 ++ u "static/src/vendor/@fortawesome/fontawesome-free/scss"]).
  { clear. intros lib w cfg Hload.
    destruct (load_inv_all _ _ _ Hload) as (fa & sk & ak & li & lt & c & _ & _ & _ & _ & _ & _ & ->).
    cbv zeta. cbn [LIBSASS_INCLUDES]. generalize (package_parent w). intros p.
    f_equal; [|f_equal].
    - change (u "static/src/vendor/bootstrap/scss")
        with (str_join [pathlib.sep]
                [u "static"; u "src"; u "vendor"; u "bootstrap"; u "scss"]).
      rewrite <- (to_str_join p [u "static"; u "src"; u "vendor"; u "bootstrap"; u "scss"])
        by done.
      destruct p as [r ps]. unfold pathlib.joinpath. simpl. by rewrite <- !app_assoc.
    - change (u "static/src/vendor/@fortawesome/fontawesome-free/scss")
        with (str_join [pathlib.sep]
                [u "static"; u "src"; u "vendor"; u "@fortawesome";
                 u "fontawesome-free"; u "scss"]).
      rewrite <- (to_str_join p [u "static"; u "src"; u "vendor"; u "@fortawesome";
                                 u "fontawesome-free"; u "scss"]) by done.
      destruct p as [r ps]. unfold pathlib.joinpath. simpl. by rewrite <- !app_assoc. }
  intros Hload. split; [exact (Hform _ _ _ Hload)|].
  intros lib' w' cfg' Hload' Hfile. rewrite (Hform _ _ _ Hload), (Hform _ _ _ Hload').
  unfold package_parent. by rewrite Hfile.
Qed.

Lemma libsass_includes_follow_the_module_witness :
  ∃ cfg, load sample_lib sample_world = Ok cfg
    ∧ LIBSASS_INCLUDES cfg
      = [dir_prefix (package_parent sample_world)
           ++ u "static/src/vendor/bootstrap/scss";
         dir_prefix (package_parent sample_world)
           ++ u "static/src/vendor/@fortawesome/fontawesome-free/scss"].
Proof.
  destruct sample_load as [cfg Hcfg]. exists cfg. split; [done|].
  apply (libsass_includes_follow_the_module sample_lib sample_world cfg Hcfg).
Defined.

(** *** Dicts filled from a list *)

Lemma dict_fold_inv {A} (key : A → string) l (d : dict A) k x :
  dict_get (foldl (λ d x, dict_set d (key x) x) d l) k = Some x →
  (x ∈ l ∧ key x = k) ∨ dict_get d k = Some x.
Proof.
  revert d. induction l as [|y l IH]; intros d H; [by right|].
  simpl in H. apply IH in H as [[Hin Hk]|H].
  - left. split; [by right|done].
  - rewrite dict_get_set in H. case_bool_decide as Hk.
    + injection H as <-. left. split; [by left|done].
    + by right.
Qed.

Lemma dict_fold_other {A} (key : A → string) l (d : dict A) k :
  (∀ x, x ∈ l → key x ≠ k) →
  dict_get (foldl (λ d x, dict_set d (key x) x) d l) k = dict_get d k.
Proof.
  revert d. induction l as [|y l IH]; intros d H; [done|].
  simpl. rewrite IH by (intros x Hx; apply H; by right).
  apply dict_get_set_ne. apply H. by left.
Qed.

Lemma dict_fold_get {A} (key : A → string) l (d : dict A) x :
  NoDup (key <$> l) → x ∈ l →
  dict_get (foldl (λ d x, dict_set d (key x) x) d l) (key x) = Some x.
Proof.
  revert d. induction l as [|y l IH]; intros d Hnd Hin; [by apply elem_of_nil in Hin|].
  simpl in *. apply NoDup_cons in Hnd as [Hy Hnd].
  apply elem_of_cons in Hin as [->|Hin]; [|by apply IH].
  rewrite dict_fold_other; [apply dict_get_set_eq|].
  intros x Hx Heq. apply Hy. rewrite <- Heq. by apply list_elem_of_fmap_2.
Qed.

Lemma sorts_foldl_add_sort l c :
  sorts (foldl add_sort c l) = foldl (λ d s, dict_set d (sort_key s) s) (sorts c) l.
Proof. revert c. induction l as [|s l IH]; intros c; [done|]. simpl. by rewrite IH. Qed.

Lemma sorts_foldl_add_badge l c : sorts (foldl add_badge c l) = sorts c.
Proof. revert c. induction l as [|s l IH]; intros c; [done|]. simpl. by rewrite IH. Qed.

Lemma sorts_foldl_add_field l c : sorts (foldl add_field c l) = sorts c.
Proof. revert c. induction l as [|s l IH]; intros c; [done|]. simpl. by rewrite IH. Qed.

Lemma badges_foldl_add_badge l c :
  badges (foldl add_badge c l) = foldl (λ d b, dict_set d (badge_key b) b) (badges c) l.
Proof. revert c. induction l as [|s l IH]; intros c; [done|]. simpl. by rewrite IH. Qed.

Lemma badges_foldl_add_sort l c : badges (foldl add_sort c l) = badges c.
Proof. revert c. induction l as [|s l IH]; intros c; [done|]. simpl. by rewrite IH. Qed.

Lemma badges_foldl_add_field l c : badges (foldl add_field c l) = badges c.
Proof. revert c. induction l as [|s l IH]; intros c; [done|]. simpl. by rewrite IH. Qed.

Lemma fresh_sorts lib :
  sorts (fresh_composer lib)
  = foldl (λ d s, dict_set d (sort_key s) s) [] (default_sorts lib).
Proof.
  unfold fresh_composer, Composer_init.
  by rewrite sorts_foldl_add_badge, sorts_foldl_add_sort, sorts_foldl_add_facet,
    sorts_foldl_add_field.
Qed.

Lemma fresh_badges lib :
  badges (fresh_composer lib)
  = foldl (λ d b, dict_set d (badge_key b) b) [] (default_badges lib).
Proof.
  unfold fresh_composer, Composer_init.
  by rewrite badges_foldl_add_badge, badges_foldl_add_sort, badges_foldl_add_facet,
    badges_foldl_add_field.
Qed.



(** *** The dot of the labels *)

Lemma ones_cat fl cs1 cs2 s :
  ones fl (cs1 ++ cs2) s = ones fl cs1 s ≫= ones fl cs2.
Proof.
  revert s. induction cs1 as [|c cs1 IH]; intros s; [done|].
  simpl. destruct s as [|x s]; [done|]. destruct (re.accepts fl c x); [apply IH|done].
Qed.

(** A label with any character but a line feed in the place of the dot. *)
Lemma ones_dotted (a b : str) c :
  c ≠ LF →
  ones flags_IM (re.CLit <$> a) a = Some [] →
  ones flags_IM (re.CLit <$> b) b = Some [] →
  ones flags_IM ((re.CLit <$> a) ++ [re.CAny] ++ (re.CLit <$> b)) (a ++ [c] ++ b)
  = Some [].
Proof.
  intros Hc Ha Hb. rewrite ones_cat, (ones_app _ _ _ _ _ Ha). simpl.
  apply N.eqb_neq in Hc. rewrite Hc. simpl. exact Hb.
Qed.


